(** * familyroots: the record store, the tree builder and the layout engine

    A shallow embedding of
      - [MemStorage]        (server/storage.ts),
      - [buildFamilyTree]   (client/src/lib/treeUtils.ts),
      - [layoutFamilyTree]  (client/src/lib/treeLayout.ts),
    followed by the properties the specification states about them.

    Modelling conventions.
      - A JavaScript [number] that holds an id, a level or a pixel
        coordinate is an integer here ([Z]): ids are counters (far below
        2^53, where a double stops counting), and every division in the
        layout code divides an even number by two
        ([layout_divisions_exact]).
      - A JavaScript [Map<number, V>] is a [gmap Z V].  [Map.values()]
        lists in insertion order, [map_to_list] in key order; the results
        below are proved for the loops as written and do not depend on the
        order of traversal.
      - The store methods are [async] but only ever await promises of the
        store itself, so a call runs to completion before the next one
        starts: a method is a function from a store to a result and a store.
      - Objects that are shared and mutated (the [FamilyTreePerson] objects
        of the builder, the [TreeNode] objects of the layout) live in an
        explicit heap and are named by references. *)

From stdpp Require Import gmap strings list fin_maps sorting pretty.
From Stdlib Require Import ZArith Lia.

Local Open Scope Z_scope.

(** ** shared/schema.ts *)

(** [InsertPerson]: a person without its id. *)
Record InsertPerson := mkInsertPerson {
  ip_name : string;
  ip_gender : option string;
  ip_birthDate : option string;
  ip_birthPlace : option string;
  ip_deathDate : option string;
  ip_notes : option string
}.

Record Person := mkPerson {
  person_id : Z;
  name : string;
  gender : option string;
  birthDate : option string;
  birthPlace : option string;
  deathDate : option string;
  notes : option string
}.

(** The object literal [{ ...insertPerson, id }]. *)
Definition spread_person (insertPerson : InsertPerson) (id : Z) : Person :=
  {| person_id := id;
     name := ip_name insertPerson;
     gender := ip_gender insertPerson;
     birthDate := ip_birthDate insertPerson;
     birthPlace := ip_birthPlace insertPerson;
     deathDate := ip_deathDate insertPerson;
     notes := ip_notes insertPerson |}.

(** [InsertRelationship]: the [type] column is [text], any string. *)
Record InsertRelationship := mkInsertRelationship {
  ir_type : string;
  ir_personId : Z;
  ir_relatedPersonId : Z
}.

Record Relationship := mkRelationship {
  rel_id : Z;
  rel_type : string;
  personId : Z;
  relatedPersonId : Z
}.

(** The object literal [{ ...insertRelationship, id }]. *)
Definition spread_relationship (insertRelationship : InsertRelationship) (id : Z)
  : Relationship :=
  {| rel_id := id;
     rel_type := ir_type insertRelationship;
     personId := ir_personId insertRelationship;
     relatedPersonId := ir_relatedPersonId insertRelationship |}.

#[global] Instance InsertPerson_eq_dec : EqDecision InsertPerson.
Proof. solve_decision. Defined.
#[global] Instance Person_eq_dec : EqDecision Person.
Proof. solve_decision. Defined.
#[global] Instance InsertRelationship_eq_dec : EqDecision InsertRelationship.
Proof. solve_decision. Defined.
#[global] Instance Relationship_eq_dec : EqDecision Relationship.
Proof. solve_decision. Defined.

Record FamilyTreeData := mkFamilyTreeData {
  data_persons : list Person;
  data_relationships : list Relationship
}.

(** ** server/storage.ts: MemStorage *)

Record MemStorage := mkMemStorage {
  persons : gmap Z Person;
  relationships : gmap Z Relationship;
  currentPersonId : Z;
  currentRelationshipId : Z
}.

(** [Array.from(map.values())]. *)
Definition values {V} (m : gmap Z V) : list V := (map_to_list m).*2.

Definition constructor : MemStorage :=
  {| persons := ∅; relationships := ∅;
     currentPersonId := 1; currentRelationshipId := 1 |}.

Definition getPerson (id : Z) (s : MemStorage) : option Person :=
  persons s !! id.

Definition getAllPersons (s : MemStorage) : list Person := values (persons s).

Definition createPerson (insertPerson : InsertPerson) (s : MemStorage)
  : Person * MemStorage :=
  let id := currentPersonId s in
  let person := spread_person insertPerson id in
  (person,
   {| persons := <[id := person]> (persons s);
      relationships := relationships s;
      currentPersonId := id + 1;
      currentRelationshipId := currentRelationshipId s |}).

Definition updatePerson (id : Z) (updatePerson : InsertPerson) (s : MemStorage)
  : option Person * MemStorage :=
  match persons s !! id with
  | None => (None, s)
  | Some existingPerson =>
      let updatedPerson := spread_person updatePerson id in
      (Some updatedPerson,
       {| persons := <[id := updatedPerson]> (persons s);
          relationships := relationships s;
          currentPersonId := currentPersonId s;
          currentRelationshipId := currentRelationshipId s |})
  end.

Definition getRelationship (id : Z) (s : MemStorage) : option Relationship :=
  relationships s !! id.

(** The filter predicate of [getRelationshipsByPerson] and [deletePerson]:
    [r.personId === id || r.relatedPersonId === id]. *)
Definition involves (id : Z) (r : Relationship) : Prop :=
  personId r = id ∨ relatedPersonId r = id.

#[global] Instance involves_dec id r : Decision (involves id r).
Proof. unfold involves. apply _. Defined.

Definition getRelationshipsByPerson (id : Z) (s : MemStorage) : list Relationship :=
  filter (involves id) (values (relationships s)).

Definition getReciprocalType (type : string) : string :=
  if decide (type = "parent") then "child"
  else if decide (type = "child") then "parent"
  else if decide (type = "spouse") then "spouse"
  else if decide (type = "sibling") then "sibling"
  else type.

(** One [if] of [createRelationship]: when the request has type [when],
    a relationship of type [recip] in the opposite direction is stored
    under the next id. *)
Definition add_reciprocal (when recip : string)
    (insertRelationship : InsertRelationship) (s : MemStorage) : MemStorage :=
  if decide (ir_type insertRelationship = when) then
    let reciprocal :=
      {| rel_id := currentRelationshipId s;
         rel_type := recip;
         personId := ir_relatedPersonId insertRelationship;
         relatedPersonId := ir_personId insertRelationship |} in
    {| persons := persons s;
       relationships := <[rel_id reciprocal := reciprocal]> (relationships s);
       currentPersonId := currentPersonId s;
       currentRelationshipId := currentRelationshipId s + 1 |}
  else s.

Definition createRelationship (insertRelationship : InsertRelationship)
    (s : MemStorage) : Relationship * MemStorage :=
  let id := currentRelationshipId s in
  let relationship := spread_relationship insertRelationship id in
  let s0 :=
    {| persons := persons s;
       relationships := <[id := relationship]> (relationships s);
       currentPersonId := currentPersonId s;
       currentRelationshipId := id + 1 |} in
  let s1 := add_reciprocal "spouse" "spouse" insertRelationship s0 in
  let s2 := add_reciprocal "parent" "child" insertRelationship s1 in
  let s3 := add_reciprocal "child" "parent" insertRelationship s2 in
  let s4 := add_reciprocal "sibling" "sibling" insertRelationship s3 in
  (relationship, s4).

(** The filter predicate of [deleteRelationship]. *)
Definition is_reciprocal_of (relationship rel : Relationship) : Prop :=
  personId rel = relatedPersonId relationship ∧
  relatedPersonId rel = personId relationship ∧
  rel_type rel = getReciprocalType (rel_type relationship).

#[global] Instance is_reciprocal_of_dec r rel : Decision (is_reciprocal_of r rel).
Proof. unfold is_reciprocal_of. apply _. Defined.

(** [for (const rel of rels) this.relationships.delete(rel.id)]. *)
Definition delete_all (rels : list Relationship) (m : gmap Z Relationship)
  : gmap Z Relationship :=
  foldl (λ m rel, delete (rel_id rel) m) m rels.

(** [Map.delete] answers whether the key was present. *)
Definition map_delete_result {V} (k : Z) (m : gmap Z V) : bool * gmap Z V :=
  (bool_decide (is_Some (m !! k)), delete k m).

Definition deleteRelationship (id : Z) (s : MemStorage) : bool * MemStorage :=
  match relationships s !! id with
  | None => (false, s)
  | Some relationship =>
      let reciprocalRelationships :=
        filter (is_reciprocal_of relationship) (values (relationships s)) in
      let m := delete_all reciprocalRelationships (relationships s) in
      let '(found, m') := map_delete_result id m in
      (found,
       {| persons := persons s;
          relationships := m';
          currentPersonId := currentPersonId s;
          currentRelationshipId := currentRelationshipId s |})
  end.

(** [for (const rel of personRelationships) await this.deleteRelationship(rel.id)]. *)
Definition delete_relationships (rels : list Relationship) (s : MemStorage)
  : MemStorage :=
  foldl (λ s rel, (deleteRelationship (rel_id rel) s).2) s rels.

Definition deletePerson (id : Z) (s : MemStorage) : bool * MemStorage :=
  let allRelationships := values (relationships s) in
  let personRelationships := filter (involves id) allRelationships in
  let s' := delete_relationships personRelationships s in
  let '(found, ps) := map_delete_result id (persons s') in
  (found,
   {| persons := ps;
      relationships := relationships s';
      currentPersonId := currentPersonId s';
      currentRelationshipId := currentRelationshipId s' |}).

Definition getFamilyTreeData (s : MemStorage) : FamilyTreeData :=
  {| data_persons := values (persons s);
     data_relationships := values (relationships s) |}.

(** A trace of calls on the store, and its effect. *)
Inductive Call :=
  | CreatePerson (insertPerson : InsertPerson)
  | UpdatePerson (id : Z) (person : InsertPerson)
  | DeletePerson (id : Z)
  | CreateRelationship (insertRelationship : InsertRelationship)
  | DeleteRelationship (id : Z).

Definition call (s : MemStorage) (c : Call) : MemStorage :=
  match c with
  | CreatePerson p => (createPerson p s).2
  | UpdatePerson id p => (updatePerson id p s).2
  | DeletePerson id => (deletePerson id s).2
  | CreateRelationship r => (createRelationship r s).2
  | DeleteRelationship id => (deleteRelationship id s).2
  end.

Definition run (calls : list Call) (s : MemStorage) : MemStorage :=
  foldl call s calls.

Definition reachable (s : MemStorage) : Prop :=
  ∃ calls, s = run calls constructor.

(** ** client/src/lib/treeUtils.ts: buildFamilyTree *)

(** A [FamilyTreePerson] object: the person's own fields ([...person]) and
    four arrays of other [FamilyTreePerson] objects.  The arrays hold
    references; in [personsMap] an object is filed under its key, and that
    key is the reference to it. *)
Record FamilyTreePerson := mkFamilyTreePerson {
  ftp_person : Person;
  children : option (list Z);
  parents : option (list Z);
  spouses : option (list Z);
  siblings : option (list Z)
}.

Definition ftp_id (p : FamilyTreePerson) : Z := person_id (ftp_person p).

(** What [buildFamilyTree] hands over: the objects it allocated and the
    array of roots it returns. *)
Record Forest := mkForest {
  heap : gmap Z FamilyTreePerson;
  roots : list FamilyTreePerson
}.

(** [{ ...person, children: [], parents: [], spouses: [], siblings: [] }]. *)
Definition new_tree_person (person : Person) : FamilyTreePerson :=
  {| ftp_person := person;
     children := Some []; parents := Some [];
     spouses := Some []; siblings := Some [] |}.

(** [arr?.push(x)]. *)
Definition push_opt {A} (x : A) (arr : option (list A)) : option (list A) :=
  (λ l, l ++ [x]) <$> arr.

Definition push_child (x : Z) (p : FamilyTreePerson) : FamilyTreePerson :=
  {| ftp_person := ftp_person p; children := push_opt x (children p);
     parents := parents p; spouses := spouses p; siblings := siblings p |}.
Definition push_parent (x : Z) (p : FamilyTreePerson) : FamilyTreePerson :=
  {| ftp_person := ftp_person p; children := children p;
     parents := push_opt x (parents p); spouses := spouses p;
     siblings := siblings p |}.
Definition push_spouse (x : Z) (p : FamilyTreePerson) : FamilyTreePerson :=
  {| ftp_person := ftp_person p; children := children p;
     parents := parents p; spouses := push_opt x (spouses p);
     siblings := siblings p |}.
Definition push_sibling (x : Z) (p : FamilyTreePerson) : FamilyTreePerson :=
  {| ftp_person := ftp_person p; children := children p;
     parents := parents p; spouses := spouses p;
     siblings := push_opt x (siblings p) |}.

(** The [switch (relationship.type)] of [relationships.forEach]: what a
    relationship does to the object [person], given [relatedPerson]. *)
Definition link (relationship : Relationship) (relatedPerson : Z)
    (person : FamilyTreePerson) : FamilyTreePerson :=
  if decide (rel_type relationship = "parent") then push_child relatedPerson person
  else if decide (rel_type relationship = "child") then push_parent relatedPerson person
  else if decide (rel_type relationship = "spouse") then push_spouse relatedPerson person
  else if decide (rel_type relationship = "sibling") then push_sibling relatedPerson person
  else person.

(** The body of [relationships.forEach]: [person] and [relatedPerson] are
    the objects filed under the two ids; the push mutates [person] where it
    is. *)
Definition connect (personsMap : gmap Z FamilyTreePerson)
    (relationship : Relationship) : gmap Z FamilyTreePerson :=
  match personsMap !! personId relationship,
        personsMap !! relatedPersonId relationship with
  | Some person, Some relatedPerson =>
      alter (link relationship (relatedPersonId relationship))
            (personId relationship) personsMap
  | _, _ => personsMap
  end.

(** [Array.prototype.sort] with the comparator [(a, b) => key a - key b]:
    a stable sort by [key], here by insertion. *)
Fixpoint insert_by {A} (key : A → Z) (x : A) (l : list A) : list A :=
  match l with
  | [] => [x]
  | y :: l' => if decide (key x ≤ key y) then x :: y :: l'
               else y :: insert_by key x l'
  end.

Definition sort_by {A} (key : A → Z) (l : list A) : list A :=
  foldr (insert_by key) [] l.

Definition buildFamilyTree (data : FamilyTreeData) : Forest :=
  let persons := data_persons data in
  let relationships := data_relationships data in
  if decide (length persons = 0%nat) then {| heap := ∅; roots := [] |}
  else
    let personsMap :=
      foldl (λ m person, <[person_id person := new_tree_person person]> m)
            ∅ persons in
    let personsMap := foldl connect personsMap relationships in
    let personsWithParents : gset Z :=
      foldl (λ s r, {[personId r]} ∪ s) ∅
            (filter (λ r, rel_type r = "child") relationships) in
    let rootCandidates :=
      filter (λ p, person_id p ∉ personsWithParents) persons in
    {| heap := personsMap;
       roots := sort_by ftp_id
                  (omap (λ p, personsMap !! person_id p) rootCandidates) |}.

(** ** client/src/lib/treeLayout.ts: layoutFamilyTree *)

(** A [TreeNode] object.  Nodes are only ever appended to [nodes], so the
    reference to a node is its position there. *)
Record TreeNode := mkTreeNode {
  node_x : Z;
  node_y : Z;
  node_person : FamilyTreePerson;
  node_width : Z;
  node_height : Z;
  node_children : option (list nat);
  node_spouse : option nat;
  node_level : Z
}.

Record Dimensions := mkDimensions { dim_width : Z; dim_height : Z }.

Inductive ConnectorType := horizontal | vertical.

Record Connector := mkConnector {
  conn_type : ConnectorType;
  x1 : Z; y1 : Z; x2 : Z; y2 : Z
}.

Record TreeLayout := mkTreeLayout {
  nodes : list TreeNode;
  connectors : list Connector;
  dimensions : Dimensions
}.

Definition NODE_WIDTH : Z := 256.
Definition NODE_HEIGHT : Z := 120.
Definition LEVEL_HEIGHT : Z := 160.
Definition SIBLING_SPACING : Z := 40.
Definition SPOUSE_SPACING : Z := 32.

(** The variables [layoutFamilyTree] closes over. *)
Record LayoutState := mkLayoutState {
  st_nodes : list TreeNode;
  st_connectors : list Connector;
  maxWidth : Z;
  maxHeight : Z
}.

Definition push_node (n : TreeNode) (st : LayoutState) : LayoutState :=
  {| st_nodes := st_nodes st ++ [n]; st_connectors := st_connectors st;
     maxWidth := maxWidth st; maxHeight := maxHeight st |}.

Definition push_connector (c : Connector) (st : LayoutState) : LayoutState :=
  {| st_nodes := st_nodes st; st_connectors := st_connectors st ++ [c];
     maxWidth := maxWidth st; maxHeight := maxHeight st |}.

Definition update_node (f : TreeNode → TreeNode) (r : nat) (st : LayoutState)
  : LayoutState :=
  {| st_nodes := alter f r (st_nodes st); st_connectors := st_connectors st;
     maxWidth := maxWidth st; maxHeight := maxHeight st |}.

Definition update_max (w h : Z) (st : LayoutState) : LayoutState :=
  {| st_nodes := st_nodes st; st_connectors := st_connectors st;
     maxWidth := Z.max (maxWidth st) w; maxHeight := Z.max (maxHeight st) h |}.

(** [node.spouse = spouseNode]. *)
Definition set_spouse (spouseNode : nat) (n : TreeNode) : TreeNode :=
  {| node_x := node_x n; node_y := node_y n; node_person := node_person n;
     node_width := node_width n; node_height := node_height n;
     node_children := node_children n; node_spouse := Some spouseNode;
     node_level := node_level n |}.

(** [node.children?.push(childNode)]. *)
Definition push_child_node (childNode : nat) (n : TreeNode) : TreeNode :=
  {| node_x := node_x n; node_y := node_y n; node_person := node_person n;
     node_width := node_width n; node_height := node_height n;
     node_children := push_opt childNode (node_children n);
     node_spouse := node_spouse n; node_level := node_level n |}.

(** [nodes.some(n => n.person.id === child.id)]. *)
Definition already_placed (st : LayoutState) (child : FamilyTreePerson) : Prop :=
  Exists (λ n, ftp_id (node_person n) = ftp_id child) (st_nodes st).

#[global] Instance already_placed_dec st child : Decision (already_placed st child).
Proof. unfold already_placed. apply _. Defined.

(** The [if (person.spouses && person.spouses.length > 0)] block of
    [processNode]; answers the spouse node, if one was made, and the
    total width of the couple. *)
Definition place_spouse (heap : gmap Z FamilyTreePerson)
    (person : FamilyTreePerson) (node : nat) (level xOffset : Z)
    (st : LayoutState) : option (option TreeNode * Z * LayoutState) :=
  match spouses person with
  | Some (first :: _) =>
      spouse ← heap !! first;
      let spouseNode :=
        {| node_x := xOffset + NODE_WIDTH + SPOUSE_SPACING;
           node_y := level * LEVEL_HEIGHT;
           node_person := spouse;
           node_width := NODE_WIDTH;
           node_height := NODE_HEIGHT;
           node_children := None;
           node_spouse := None;
           node_level := level |} in
      let spouseRef := length (st_nodes st) in
      let st := push_node spouseNode st in
      let st := update_node (set_spouse spouseRef) node st in
      let st :=
        push_connector
          {| conn_type := horizontal;
             x1 := xOffset + NODE_WIDTH;
             y1 := level * LEVEL_HEIGHT + NODE_HEIGHT / 2;
             x2 := node_x spouseNode;
             y2 := node_y spouseNode + node_height spouseNode / 2 |} st in
      Some (Some spouseNode, NODE_WIDTH + (NODE_WIDTH + SPOUSE_SPACING), st)
  | _ => Some (None, NODE_WIDTH, st)
  end.

(** The body of [validChildren.forEach((child, index) => ...)], with the
    recursive call to [processNode] passed in as [recur]. *)
Fixpoint place_children
    (recur : FamilyTreePerson → Z → Z → LayoutState → option (nat * LayoutState))
    (node : nat) (level childXOffset parentY : Z)
    (validChildren : list FamilyTreePerson) (index : Z) (st : LayoutState)
  : option LayoutState :=
  match validChildren with
  | [] => Some st
  | child :: rest =>
      let childX := childXOffset + index * (NODE_WIDTH + SIBLING_SPACING) in
      '(childRef, st) ← recur child (level + 1) childX st;
      childNode ← st_nodes st !! childRef;
      let st := update_node (push_child_node childRef) node st in
      let st :=
        push_connector
          {| conn_type := vertical;
             x1 := childX + NODE_WIDTH / 2;
             y1 := parentY + LEVEL_HEIGHT / 2;
             x2 := childX + NODE_WIDTH / 2;
             y2 := node_y childNode |} st in
      let st := update_max (childX + NODE_WIDTH) (node_y childNode + NODE_HEIGHT) st in
      place_children recur node level childXOffset parentY rest (index + 1) st
  end.

(** [processNode].  The recursion follows the [children] arrays of objects
    that may refer to one another in cycles, so it is driven by [fuel];
    [None] means the fuel ran out or a reference did not resolve. *)
Fixpoint processNode (fuel : nat) (heap : gmap Z FamilyTreePerson)
    (person : FamilyTreePerson) (level xOffset : Z) (st : LayoutState)
  : option (nat * LayoutState) :=
  match fuel with
  | O => None
  | S fuel =>
      let node :=
        {| node_x := xOffset;
           node_y := level * LEVEL_HEIGHT;
           node_person := person;
           node_width := NODE_WIDTH;
           node_height := NODE_HEIGHT;
           node_children := Some [];
           node_spouse := None;
           node_level := level |} in
      let nodeRef := length (st_nodes st) in
      let st := push_node node st in
      '(spouseNode, totalWidth, st) ← place_spouse heap person nodeRef level xOffset st;
      childObjects ← mapM (λ r, heap !! r) (default [] (children person));
      let validChildren := filter (λ child, ¬ already_placed st child) childObjects in
      st ←
        (if decide (0 < length validChildren)%nat then
           let n := Z.of_nat (length validChildren) in
           let centerX :=
             match spouseNode with
             | Some sp => node_x node + (node_x sp + node_width sp - node_x node) / 2
             | None => node_x node + node_width node / 2
             end in
           let childXOffset :=
             Z.max 0 (centerX - (n * NODE_WIDTH + (n - 1) * SIBLING_SPACING) / 2) in
           let parentY := node_y node + node_height node in
           let st :=
             push_connector
               {| conn_type := vertical;
                  x1 := centerX; y1 := parentY;
                  x2 := centerX; y2 := parentY + LEVEL_HEIGHT / 2 |} st in
           let st :=
             if decide (1 < length validChildren)%nat then
               push_connector
                 {| conn_type := horizontal;
                    x1 := childXOffset + NODE_WIDTH / 2;
                    y1 := parentY + LEVEL_HEIGHT / 2;
                    x2 := childXOffset + n * NODE_WIDTH
                          + (n - 1) * SIBLING_SPACING - NODE_WIDTH / 2;
                    y2 := parentY + LEVEL_HEIGHT / 2 |} st
             else st in
           place_children (processNode fuel heap) nodeRef level childXOffset
                          parentY validChildren 0 st
         else Some st);
      let st := update_max (xOffset + totalWidth) (level * LEVEL_HEIGHT + NODE_HEIGHT) st in
      Some (nodeRef, st)
  end.

(** [rootPersons.forEach(rootPerson => ...)], threading [xPos]. *)
Fixpoint place_roots (fuel : nat) (heap : gmap Z FamilyTreePerson)
    (rootPersons : list FamilyTreePerson) (xPos : Z) (st : LayoutState)
  : option LayoutState :=
  match rootPersons with
  | [] => Some st
  | rootPerson :: rest =>
      '(node, st) ← processNode fuel heap rootPerson 0 xPos st;
      place_roots fuel heap rest (maxWidth st + SIBLING_SPACING) st
  end.

Definition layout_with (fuel : nat) (heap : gmap Z FamilyTreePerson)
    (rootPersons : list FamilyTreePerson) : option TreeLayout :=
  st ← place_roots fuel heap rootPersons 0
         {| st_nodes := []; st_connectors := []; maxWidth := 0; maxHeight := 0 |};
  Some {| nodes := st_nodes st;
          connectors := st_connectors st;
          dimensions := {| dim_width := maxWidth st; dim_height := maxHeight st |} |}.

(** No chain of nested [processNode] calls is longer than the number of
    objects plus one (see [processNode_places]), which bounds the fuel. *)
Definition layoutFamilyTree (heap : gmap Z FamilyTreePerson)
    (rootPersons : list FamilyTreePerson) : option TreeLayout :=
  layout_with (S (size heap)) heap rootPersons.

(** ** Vocabulary of the statements *)

(** A record is stored when some key of the map holds it. *)
Definition stored {V} (m : gmap Z V) (v : V) : Prop := ∃ k, m !! k = Some v.

(** Every record is filed under its own id, and the ids handed out so far
    are the positive integers below the counter. *)
Definition store_wf (s : MemStorage) : Prop :=
  (∀ k p, persons s !! k = Some p →
     person_id p = k ∧ 1 ≤ k < currentPersonId s) ∧
  (∀ k r, relationships s !! k = Some r →
     rel_id r = k ∧ 1 ≤ k < currentRelationshipId s) ∧
  1 ≤ currentPersonId s ∧ 1 ≤ currentRelationshipId s.

(** The four relationship types of the schema. *)
Definition known_type (t : string) : Prop :=
  t = "parent" ∨ t = "child" ∨ t = "spouse" ∨ t = "sibling".

#[global] Instance known_type_dec t : Decision (known_type t).
Proof. unfold known_type. apply _. Defined.

(** The reciprocal-relationship invariant of the data model: every stored
    relationship of one of the four types, from A to B, has a stored
    mirror of the reciprocal type from B to A. *)
Definition mirrored (s : MemStorage) : Prop :=
  ∀ r, stored (relationships s) r → known_type (rel_type r) →
    ∃ r', stored (relationships s) r' ∧ is_reciprocal_of r r'.

(** What [createRelationship] is said to do with a request: answer the
    requested relationship under a fresh id, store it, and store a second
    relationship that is its reciprocal. *)
Definition records_with_reciprocal (insertRelationship : InsertRelationship)
    (s : MemStorage) : Prop :=
  let '(result, s') := createRelationship insertRelationship s in
  result = spread_relationship insertRelationship (currentRelationshipId s) ∧
  relationships s' !! rel_id result = Some result ∧
  ∃ k rel, k ≠ rel_id result ∧ relationships s' !! k = Some rel ∧
           is_reciprocal_of result rel.

(** The persons the flat list relates to person [a] by type [t], in the
    order of the list and as often as the list says so, counting only
    relationships between persons of the persons list. *)
Definition related (t : string) (data : FamilyTreeData) (a : Z) : list Z :=
  relatedPersonId <$>
    filter (λ r, rel_type r = t ∧ personId r = a ∧
                 relatedPersonId r ∈ person_id <$> data_persons data)
           (data_relationships data).

(** Person [a] has a recorded parent: it is the [personId] of some
    relationship of type child. *)
Definition has_recorded_parent (data : FamilyTreeData) (a : Z) : Prop :=
  Exists (λ r, rel_type r = "child" ∧ personId r = a) (data_relationships data).

#[global] Instance has_recorded_parent_dec data a :
  Decision (has_recorded_parent data a).
Proof. unfold has_recorded_parent. apply _. Defined.

(** Every reference held by the [children] and [spouses] arrays of an
    object leads to an object of the heap (as any JavaScript reference
    does). *)
Definition resolves (heap : gmap Z FamilyTreePerson) (p : FamilyTreePerson)
  : Prop :=
  ∀ x, x ∈ default [] (children p) ++ default [] (spouses p) →
       is_Some (heap !! x).

Definition heap_closed (heap : gmap Z FamilyTreePerson) : Prop :=
  ∀ a p, heap !! a = Some p → resolves heap p.

(** A node lies inside the box with corners (0, 0) and (w, h). *)
Definition fits (w h : Z) (n : TreeNode) : Prop :=
  0 ≤ node_x n ∧ 0 ≤ node_y n ∧
  node_x n + node_width n ≤ w ∧ node_y n + node_height n ≤ h.

Definition within (d : Dimensions) (n : TreeNode) : Prop :=
  fits (dim_width d) (dim_height d) n.

(** While [processNode] runs, the nodes pushed so far fit the box spanned
    by the running maxima together with the extent [w], [h] that the calls
    still on the stack will add when they return. *)
Definition pending (w h : Z) (st : LayoutState) : Prop :=
  Forall (fits (Z.max (maxWidth st) w) (Z.max (maxHeight st) h)) (st_nodes st).

(** What no step of the layout changes in a node once it is pushed. *)
Definition box (n : TreeNode) : Z * Z * Z * Z * Z :=
  (node_x n, node_y n, node_width n, node_height n, ftp_id (node_person n)).

(** [st'] comes after [st]: the nodes of [st] are still there, in place
    and with their box, and the maxima have not shrunk. *)
Definition grows (st st' : LayoutState) : Prop :=
  (∀ i n, st_nodes st !! i = Some n →
          ∃ n', st_nodes st' !! i = Some n' ∧ box n' = box n) ∧
  maxWidth st ≤ maxWidth st' ∧ maxHeight st ≤ maxHeight st'.

(** The ids of the persons that have a node. *)
Definition seen (st : LayoutState) : gset Z :=
  list_to_set ((λ n, ftp_id (node_person n)) <$> st_nodes st).

(** The ids of the objects of the heap. *)
Definition heap_ids (heap : gmap Z FamilyTreePerson) : gset Z :=
  list_to_set (ftp_id <$> values heap).

(** What one call of [processNode] with fuel [fuel] achieves, stated for
    any function [recur] that stands for it: it returns, to a node at the
    level asked for, and keeps [pending]. *)
Definition places (heap : gmap Z FamilyTreePerson) (fuel : nat)
    (recur : FamilyTreePerson → Z → Z → LayoutState → option (nat * LayoutState))
  : Prop :=
  ∀ person level xOffset st w h,
    resolves heap person → 0 ≤ level → 0 ≤ xOffset →
    (size (heap_ids heap ∖ (seen st ∪ {[ftp_id person]})) < fuel)%nat →
    pending w h st →
    ∃ r st',
      recur person level xOffset st = Some (r, st') ∧
      grows st st' ∧
      (∃ n, st_nodes st' !! r = Some n ∧ node_y n = level * LEVEL_HEIGHT) ∧
      ftp_id person ∈ seen st' ∧
      pending w h st'.

Definition ir (t : string) (a b : Z) : InsertRelationship :=
  mkInsertRelationship t a b.

Definition pers (id : Z) (n : string) : Person :=
  mkPerson id n None None None None None.

Definition demo : FamilyTreeData :=
  {| data_persons := [pers 3 "c"; pers 1 "a"; pers 2 "b"];
     data_relationships :=
       [mkRelationship 1 "parent" 1 3; mkRelationship 2 "child" 3 1;
        mkRelationship 3 "spouse" 1 2; mkRelationship 4 "spouse" 2 1;
        mkRelationship 5 "parent" 2 3; mkRelationship 6 "child" 3 2] |}.

Definition ip (n : string) : InsertPerson :=
  mkInsertPerson n None None None None None.

(** ** More vocabulary: the store *)

(** Two relationships state the same thing: the same type between the same
    persons in the same direction. *)
Definition same_statement (x y : Relationship) : Prop :=
  rel_type x = rel_type y ∧ personId x = personId y ∧
  relatedPersonId x = relatedPersonId y.

(** A request repeats what some stored relationship already states. *)
Definition repeats (insertRelationship : InsertRelationship) (s : MemStorage)
  : Prop :=
  Exists (λ x, rel_type x = ir_type insertRelationship ∧
               personId x = ir_personId insertRelationship ∧
               relatedPersonId x = ir_relatedPersonId insertRelationship)
         (values (relationships s)).

#[global] Instance repeats_dec r s : Decision (repeats r s).
Proof. unfold repeats. apply _. Defined.

(** A sequence of calls, made from store [s] on, in which no
    [createRelationship] repeats what is stored at the time of the call. *)
Fixpoint no_repeats (calls : list Call) (s : MemStorage) : Prop :=
  match calls with
  | [] => True
  | c :: calls =>
      match c with
      | CreateRelationship r => ¬ repeats r s
      | _ => True
      end ∧ no_repeats calls (call s c)
  end.

(** No statement is stored twice, except that a relationship which is its
    own reciprocal is stored together with its copy. *)
Definition stored_once (s : MemStorage) : Prop :=
  ∀ x y, stored (relationships s) x → stored (relationships s) y →
         same_statement x y → x = y ∨ is_reciprocal_of x x.

(** ** More vocabulary: the layout *)

(** A node as [processNode] makes them: a card of the fixed size on the
    row of its level. *)
Definition node_shaped (n : TreeNode) : Prop :=
  node_width n = NODE_WIDTH ∧ node_height n = NODE_HEIGHT ∧
  0 ≤ node_level n ∧ node_y n = node_level n * LEVEL_HEIGHT.

(** A connector runs along the axis its type names. *)
Definition aligned (c : Connector) : Prop :=
  match conn_type c with
  | horizontal => y1 c = y2 c
  | vertical => x1 c = x2 c
  end.

(** The running maxima are zero or the right edge, respectively the lower
    edge, of a node. *)
Definition attained (st : LayoutState) : Prop :=
  (maxWidth st = 0 ∨
   ∃ i n, st_nodes st !! i = Some n ∧ node_x n + node_width n = maxWidth st) ∧
  (maxHeight st = 0 ∨
   ∃ i n, st_nodes st !! i = Some n ∧ node_y n + node_height n = maxHeight st).

Definition tidy (st : LayoutState) : Prop :=
  Forall node_shaped (st_nodes st) ∧ Forall aligned (st_connectors st) ∧
  attained st.

(** What stays of a node for good: where it is, whom it shows, and whether
    it has a [children] array (the node of a spouse has none). *)
Definition frame (n : TreeNode)
  : Z * Z * Z * Z * FamilyTreePerson * Z * bool :=
  (node_x n, node_y n, node_width n, node_height n, node_person n,
   node_level n, bool_decide (is_Some (node_children n))).

Definition extends (st st' : LayoutState) : Prop :=
  ∀ i n, st_nodes st !! i = Some n →
         ∃ n', st_nodes st' !! i = Some n' ∧ frame n' = frame n.

(** Every node with a [children] array whose call of [processNode] has
    returned (it is not [busy]) shows a person all of whose children have
    a node. *)
Definition covered (heap : gmap Z FamilyTreePerson) (busy : nat → Prop)
    (st : LayoutState) : Prop :=
  ∀ i n, st_nodes st !! i = Some n → ¬ busy i → is_Some (node_children n) →
    ∀ c child, c ∈ default [] (children (node_person n)) →
               heap !! c = Some child → ftp_id child ∈ seen st.

(** What a call of [processNode] has done when it returns, stated for any
    function [recur] that stands for it. *)
Definition finishes (heap : gmap Z FamilyTreePerson)
    (recur : FamilyTreePerson → Z → Z → LayoutState → option (nat * LayoutState))
  : Prop :=
  ∀ person level xOffset st r st' busy,
    recur person level xOffset st = Some (r, st') →
    0 ≤ level → tidy st → covered heap busy st →
    (∀ i, busy i → (i < length (st_nodes st))%nat) →
    tidy st' ∧ extends st st' ∧ covered heap busy st' ∧
    ∃ n, st_nodes st' !! r = Some n ∧
         frame n = (xOffset, level * LEVEL_HEIGHT, NODE_WIDTH, NODE_HEIGHT,
                    person, level, true).

(** ** client/src/context/FamilyTreeContext.tsx: the client's copy of the data *)

(** The state updaters that [addPerson] and [updatePerson] pass to
    [setData] after the server has answered. *)
Definition addPerson_local (newPerson : Person) (prev : FamilyTreeData)
  : FamilyTreeData :=
  {| data_persons := data_persons prev ++ [newPerson];
     data_relationships := data_relationships prev |}.

Definition updatePerson_local (id : Z) (updatedPerson : Person)
    (prev : FamilyTreeData) : FamilyTreeData :=
  {| data_persons :=
       (λ p, if decide (person_id p = id) then updatedPerson else p)
         <$> data_persons prev;
     data_relationships := data_relationships prev |}.

(** [deletePerson]: the updater is passed to [setData] only when the
    request did not throw.  The route answers 404 when the store's
    [deletePerson] returns [false], the request then throws and the
    [catch] branch leaves the state as it is; [deleted] is the store's
    answer. *)
Definition deletePerson_local (deleted : bool) (id : Z) (prev : FamilyTreeData)
  : FamilyTreeData :=
  if deleted then
    {| data_persons := filter (λ p, person_id p ≠ id) (data_persons prev);
       data_relationships :=
         filter (λ r, personId r ≠ id ∧ relatedPersonId r ≠ id)
                (data_relationships prev) |}
  else prev.

(** ** client/src/lib/treeUtils.ts: getRelationshipsFromTree *)

(** The two variables [getRelationshipsFromTree] closes over. *)
Record Extraction := mkExtraction {
  ex_relationships : list Relationship;
  processedPairs : gset string
}.

(** The template strings [`${a}-${b}-parent`], [`${a}-${b}-spouse`] and
    [`${a}-${b}-sibling`]; [pretty] prints an integer in decimal, as the
    template does. *)
Definition pair_key (a b : Z) (kind : string) : string :=
  pretty a +:+ "-" +:+ pretty b +:+ "-" +:+ kind.

Definition record_pair (kind : string) (person other : FamilyTreePerson)
    (st : Extraction) : Extraction :=
  {| ex_relationships :=
       ex_relationships st ++
         [{| rel_id := 0; rel_type := kind;
             personId := ftp_id person; relatedPersonId := ftp_id other |}];
     processedPairs :=
       {[ pair_key (ftp_id person) (ftp_id other) kind ]} ∪ processedPairs st |}.

(** The body of [person.children?.forEach] before the recursive call. *)
Definition record_parent (person child : FamilyTreePerson) (st : Extraction)
  : Extraction :=
  let pairKey := pair_key (ftp_id person) (ftp_id child) "parent" in
  if decide (pairKey ∉ processedPairs st) then record_pair "parent" person child st
  else st.

(** The body of [person.spouses?.forEach] and, with [kind] sibling, of
    [person.siblings?.forEach]. *)
Definition record_couple (kind : string) (person : FamilyTreePerson)
    (st : Extraction) (other : FamilyTreePerson) : Extraction :=
  let pairKey := pair_key (ftp_id person) (ftp_id other) kind in
  let reversePairKey := pair_key (ftp_id other) (ftp_id person) kind in
  if decide ((pairKey ∉ processedPairs st) ∧ (reversePairKey ∉ processedPairs st))
  then record_pair kind person other st
  else st.

(** [person.children?.forEach(child => { ...; traverseTree(child) })], with
    the recursive call passed in as [recur]. *)
Fixpoint visit_children
    (recur : FamilyTreePerson → Extraction → option Extraction)
    (person : FamilyTreePerson) (childObjects : list FamilyTreePerson)
    (st : Extraction) : option Extraction :=
  match childObjects with
  | [] => Some st
  | child :: rest =>
      st ← recur child (record_parent person child st);
      visit_children recur person rest st
  end.

(** [traverseTree].  It follows the [children] arrays without any check
    for persons met before, so it is driven by [fuel]; [None] means that
    the fuel ran out (in the source: that the call stack did) or that a
    reference did not resolve. *)
Fixpoint traverseTree (fuel : nat) (heap : gmap Z FamilyTreePerson)
    (person : FamilyTreePerson) (st : Extraction) : option Extraction :=
  match fuel with
  | O => None
  | S fuel =>
      childObjects ← mapM (λ r, heap !! r) (default [] (children person));
      st ← visit_children (traverseTree fuel heap) person childObjects st;
      spouseObjects ← mapM (λ r, heap !! r) (default [] (spouses person));
      let st := foldl (record_couple "spouse" person) st spouseObjects in
      siblingObjects ← mapM (λ r, heap !! r) (default [] (siblings person));
      let st := foldl (record_couple "sibling" person) st siblingObjects in
      Some st
  end.

(** [tree.forEach(person => traverseTree(person))]. *)
Fixpoint traverse_all (fuel : nat) (heap : gmap Z FamilyTreePerson)
    (tree : list FamilyTreePerson) (st : Extraction) : option Extraction :=
  match tree with
  | [] => Some st
  | person :: rest =>
      st ← traverseTree fuel heap person st;
      traverse_all fuel heap rest st
  end.

Definition getRelationshipsFromTree (fuel : nat)
    (heap : gmap Z FamilyTreePerson) (tree : list FamilyTreePerson)
  : option (list Relationship) :=
  st ← traverse_all fuel heap tree
         {| ex_relationships := []; processedPairs := ∅ |};
  Some (ex_relationships st).

(** *** Vocabulary for the extraction *)

(** [y] states [x] the other way round. *)
Definition reversed (x y : Relationship) : Prop :=
  rel_type x = rel_type y ∧ personId x = relatedPersonId y ∧
  relatedPersonId x = personId y.

(** All three kinds of references of an object resolve. *)
Definition resolves_all (heap : gmap Z FamilyTreePerson) (p : FamilyTreePerson)
  : Prop :=
  ∀ x, x ∈ default [] (children p) ++ default [] (spouses p) ++
           default [] (siblings p) → is_Some (heap !! x).

(** [other] is held by the array of [person] that goes with [kind]. *)
Definition held (heap : gmap Z FamilyTreePerson) (kind : string)
    (person other : FamilyTreePerson) : Prop :=
  ∃ c, heap !! c = Some other ∧
       ((kind = "parent" ∧ c ∈ default [] (children person)) ∨
        (kind = "spouse" ∧ c ∈ default [] (spouses person)) ∨
        (kind = "sibling" ∧ c ∈ default [] (siblings person))).

(** A person of the tree: a root or an object of the heap. *)
Definition in_tree (heap : gmap Z FamilyTreePerson)
    (tree : list FamilyTreePerson) (p : FamilyTreePerson) : Prop :=
  p ∈ tree ∨ ∃ a, heap !! a = Some p.

(** Every child of [p] ranks below [p]. *)
Definition descends (rank : Z → nat) (heap : gmap Z FamilyTreePerson)
    (p : FamilyTreePerson) : Prop :=
  ∀ c child, c ∈ default [] (children p) → heap !! c = Some child →
             (rank (ftp_id child) < rank (ftp_id p))%nat.

(** An extracted relationship is read off an array of a person of the
    tree. *)
Definition read_off (heap : gmap Z FamilyTreePerson)
    (tree : list FamilyTreePerson) (r : Relationship) : Prop :=
  rel_id r = 0 ∧
  ∃ person other,
    in_tree heap tree person ∧
    held heap (rel_type r) person other ∧
    personId r = ftp_id person ∧ relatedPersonId r = ftp_id other.

(** What the extraction keeps true of its two variables. *)
Definition extraction_ok (heap : gmap Z FamilyTreePerson)
    (tree : list FamilyTreePerson) (st : Extraction) : Prop :=
  Forall (read_off heap tree) (ex_relationships st) ∧
  NoDup (ex_relationships st) ∧
  (∀ r, r ∈ ex_relationships st →
        pair_key (personId r) (relatedPersonId r) (rel_type r)
          ∈ processedPairs st) ∧
  (∀ x y, x ∈ ex_relationships st → y ∈ ex_relationships st →
          rel_type x ≠ "parent" → reversed x y → same_statement x y).

(** * Properties *)

(** ** The record store *)

Lemma elem_of_values {V} (m : gmap Z V) (v : V) : v ∈ values m ↔ stored m v.
Proof.
  unfold values, stored. rewrite list_elem_of_fmap. split.
  - intros [[k v'] [-> Hin]]. exists k. by apply elem_of_map_to_list.
  - intros [k Hk]. exists (k, v). split; [done|]. by apply elem_of_map_to_list.
Qed.

Lemma lookup_delete_all rels (m : gmap Z Relationship) k :
  delete_all rels m !! k =
  if decide (k ∈ rel_id <$> rels) then None else m !! k.
Proof.
  unfold delete_all. revert m. induction rels as [|r rels IH]; intros m.
  - simpl. destruct (decide (k ∈ [])) as [H|_]; [by apply elem_of_nil in H|done].
  - rewrite fmap_cons. simpl. rewrite IH.
    destruct (decide (k ∈ rel_id <$> rels)) as [Hin|Hin].
    + rewrite decide_True; [done|]. apply elem_of_cons. by right.
    + destruct (decide (k = rel_id r)) as [->|Hne].
      * rewrite lookup_delete_eq. rewrite decide_True; [done|].
        apply elem_of_cons. by left.
      * rewrite lookup_delete_ne by done. rewrite decide_False; [done|].
        intros [?|?]%elem_of_cons; done.
Qed.

Section delete_relationship.
Variable s : MemStorage.
Hypothesis Hwf : store_wf s.

Lemma stored_rel_key k r : relationships s !! k = Some r → rel_id r = k.
Proof. intros H. destruct Hwf as (_ & Hr & _). by apply Hr in H as [? _]. Qed.

(** Which keys the inner loop of [deleteRelationship] removes. *)
Lemma reciprocal_keys r k :
  k ∈ rel_id <$> filter (is_reciprocal_of r) (values (relationships s)) ↔
  ∃ r', relationships s !! k = Some r' ∧ is_reciprocal_of r r'.
Proof.
  rewrite list_elem_of_fmap. split.
  - intros (r' & -> & Hin). apply list_elem_of_filter in Hin as [Hrec Hin].
    apply elem_of_values in Hin as [k Hk].
    exists r'. split; [|done]. by rewrite (stored_rel_key _ _ Hk).
  - intros (r' & Hk & Hrec). exists r'. split.
    + symmetry. by apply stored_rel_key.
    + apply list_elem_of_filter. split; [done|].
      apply elem_of_values. by exists k.
Qed.

(** [deleteRelationship] on a stored relationship: the map loses the
    relationship and all its reciprocals and nothing else; the answer is
    that of the last [Map.delete], which finds nothing when the
    relationship is a reciprocal of itself. *)
Lemma deleteRelationship_stored id r :
  relationships s !! id = Some r →
  deleteRelationship id s =
    (bool_decide (¬ is_reciprocal_of r r),
     {| persons := persons s;
        relationships :=
          filter (λ kv, kv.1 ≠ id ∧ ¬ is_reciprocal_of r kv.2) (relationships s);
        currentPersonId := currentPersonId s;
        currentRelationshipId := currentRelationshipId s |}).
Proof.
  intros Hid. unfold deleteRelationship, map_delete_result. rewrite Hid.
  f_equal.
  - rewrite lookup_delete_all. apply bool_decide_ext.
    case_decide as Hin.
    + apply reciprocal_keys in Hin as (r' & Hr' & Hrec).
      assert (r' = r) as -> by congruence.
      split; [by intros [? ?] | tauto].
    + rewrite Hid. split; [|by eauto]. intros _ Hrec. apply Hin.
      apply reciprocal_keys. eauto.
  - f_equal. apply map_eq. intros k.
    destruct (decide (k = id)) as [->|Hne].
    + rewrite lookup_delete_eq. symmetry.
      apply map_lookup_filter_None. right. intros x _ [? _]. done.
    + rewrite lookup_delete_ne by done. rewrite lookup_delete_all.
      case_decide as Hin.
      * apply reciprocal_keys in Hin as (r' & Hr' & Hrec). symmetry.
        apply map_lookup_filter_None. right. intros x Hx [_ Hn]. simpl in *.
        apply Hn. congruence.
      * destruct (relationships s !! k) as [x|] eqn:Hk.
        -- symmetry. apply map_lookup_filter_Some. split; [done|]. simpl.
           split; [done|]. intros Hrec. apply Hin. apply reciprocal_keys. eauto.
        -- symmetry. apply map_lookup_filter_None. by left.
Qed.
End delete_relationship.

Lemma deleteRelationship_missing s id :
  relationships s !! id = None → deleteRelationship id s = (false, s).
Proof. intros H. unfold deleteRelationship. by rewrite H. Qed.

(** *** The representation invariant *)

Lemma store_wf_constructor : store_wf constructor.
Proof.
  unfold store_wf, constructor; simpl.
  split; [|split; [|lia]]; intros k x Hk; by rewrite lookup_empty in Hk.
Qed.

Lemma store_wf_createPerson p s : store_wf s → store_wf (createPerson p s).2.
Proof.
  intros (Hp & Hr & ? & ?). unfold store_wf, createPerson; simpl.
  split; [|split; [|lia]].
  - intros k q [[<- <-]|[_ Hq]]%lookup_insert_Some; simpl; [lia|].
    apply Hp in Hq as [? ?]. lia.
  - done.
Qed.

Lemma store_wf_updatePerson id p s : store_wf s → store_wf (updatePerson id p s).2.
Proof.
  intros Hwf. unfold updatePerson.
  destruct (persons s !! id) as [old|] eqn:Hold; [|done].
  destruct Hwf as (Hp & Hr & ? & ?). apply Hp in Hold as [_ Hold].
  unfold store_wf; simpl. split; [|done].
  intros k q [[<- <-]|[_ Hq]]%lookup_insert_Some; [done|]. by apply Hp.
Qed.

Lemma store_wf_add_reciprocal when recip r s :
  store_wf s → store_wf (add_reciprocal when recip r s).
Proof.
  intros Hwf. unfold add_reciprocal. case_decide; [|done].
  destruct Hwf as (Hp & Hr & ? & ?). unfold store_wf; simpl.
  split; [done|]. split; [|lia].
  intros k q [[<- <-]|[_ Hq]]%lookup_insert_Some; simpl; [lia|].
  apply Hr in Hq as [? ?]. lia.
Qed.

Lemma store_wf_createRelationship r s :
  store_wf s → store_wf (createRelationship r s).2.
Proof.
  intros Hwf. unfold createRelationship; simpl.
  do 4 apply store_wf_add_reciprocal.
  destruct Hwf as (Hp & Hr & ? & ?). unfold store_wf; simpl.
  split; [done|]. split; [|lia].
  intros k q [[<- <-]|[_ Hq]]%lookup_insert_Some; simpl; [lia|].
  apply Hr in Hq as [? ?]. lia.
Qed.

(** One call of [deleteRelationship k0] inside [deletePerson id], when the
    relationship filed under [k0], if any, involves [id]. *)
Lemma deleteRelationship_step id k0 s :
  store_wf s →
  (∀ r, relationships s !! k0 = Some r → involves id r) →
  let s' := (deleteRelationship k0 s).2 in
  store_wf s' ∧
  persons s' = persons s ∧
  currentPersonId s' = currentPersonId s ∧
  currentRelationshipId s' = currentRelationshipId s ∧
  (∀ k x, relationships s' !! k = Some x → relationships s !! k = Some x) ∧
  (∀ k x, relationships s !! k = Some x → ¬ involves id x →
          relationships s' !! k = Some x) ∧
  relationships s' !! k0 = None.
Proof.
  intros Hwf Hinv. destruct (relationships s !! k0) as [r|] eqn:Hk0.
  - rewrite (deleteRelationship_stored s Hwf k0 r Hk0). simpl.
    assert (∀ k x,
      filter (λ kv : Z * Relationship, kv.1 ≠ k0 ∧ ¬ is_reciprocal_of r kv.2)
             (relationships s) !! k = Some x → relationships s !! k = Some x)
      as Hsub by (intros k x [? _]%map_lookup_filter_Some; done).
    destruct Hwf as (Hp & Hr & ? & ?).
    split.
    { split; [done|]. split; [|done]. intros k x Hk%Hsub. by apply Hr. }
    do 4 (split; [done|]). split.
    + intros k x Hk Hni. apply map_lookup_filter_Some. split; [done|]. simpl.
      split.
      * intros ->. apply Hni, Hinv. congruence.
      * intros (Hpr & Hq & _). apply Hni.
        destruct (Hinv r eq_refl) as [<-|<-]; [by right|by left].
    + apply map_lookup_filter_None. right. intros x _ [? _]. done.
  - rewrite deleteRelationship_missing by done. simpl.
    do 4 (split; [done|]). split; [done|]. split; done.
Qed.

Lemma delete_relationships_cons r rels s :
  delete_relationships (r :: rels) s =
  delete_relationships rels (deleteRelationship (rel_id r) s).2.
Proof. done. Qed.

(** The loop of [deletePerson id] over relationships that involve [id]. *)
Lemma delete_relationships_spec id rels :
  ∀ s, store_wf s →
  (∀ r r', r ∈ rels → relationships s !! rel_id r = Some r' → involves id r') →
  let s' := delete_relationships rels s in
  store_wf s' ∧
  persons s' = persons s ∧
  currentPersonId s' = currentPersonId s ∧
  currentRelationshipId s' = currentRelationshipId s ∧
  (∀ k x, relationships s' !! k = Some x → relationships s !! k = Some x) ∧
  (∀ k x, relationships s !! k = Some x → ¬ involves id x →
          relationships s' !! k = Some x) ∧
  (∀ r, r ∈ rels → relationships s' !! rel_id r = None).
Proof.
  induction rels as [|r0 rels IH]; intros s Hwf Hinv.
  - simpl. do 4 (split; [done|]). split; [done|]. split; [done|].
    intros r Hr. by apply elem_of_nil in Hr.
  - destruct (deleteRelationship_step id (rel_id r0) s Hwf) as
      (Hwf1 & Hp1 & Hc1 & Hd1 & Hsub1 & Hkeep1 & Hgone1).
    { intros r'. apply Hinv, elem_of_cons. by left. }
    destruct (IH (deleteRelationship (rel_id r0) s).2 Hwf1) as
      (Hwf2 & Hp2 & Hc2 & Hd2 & Hsub2 & Hkeep2 & Hgone2).
    { intros r r' Hr Hk. apply (Hinv r); [apply elem_of_cons; by right|].
      by apply Hsub1. }
    rewrite delete_relationships_cons.
    set (s2 := delete_relationships rels (deleteRelationship (rel_id r0) s).2) in *.
    simpl.
    split; [done|]. split; [congruence|]. split; [congruence|].
    split; [congruence|]. split; [by auto|]. split; [by auto|].
    intros r [->|Hr]%elem_of_cons; [|by auto].
    destruct (relationships s2 !! rel_id r0) as [x|] eqn:Hx; [|done].
    apply Hsub2 in Hx. congruence.
Qed.

(** [deletePerson] in closed form. *)
Lemma deletePerson_spec id s :
  store_wf s →
  deletePerson id s =
    (bool_decide (is_Some (persons s !! id)),
     {| persons := delete id (persons s);
        relationships := filter (λ kv, ¬ involves id kv.2) (relationships s);
        currentPersonId := currentPersonId s;
        currentRelationshipId := currentRelationshipId s |}).
Proof.
  intros Hwf. unfold deletePerson, map_delete_result.
  destruct (delete_relationships_spec id
              (filter (involves id) (values (relationships s))) s Hwf)
    as (_ & Hp & Hc & Hd & Hsub & Hkeep & Hgone).
  { intros r r' [Hr Hin]%list_elem_of_filter Hk.
    apply elem_of_values in Hin as [k Hin].
    rewrite (stored_rel_key s Hwf k r Hin) in Hk. congruence. }
  set (s' := delete_relationships _ s) in *.
  rewrite Hp, Hc, Hd. do 2 f_equal. apply map_eq. intros k.
  destruct (relationships s !! k) as [x|] eqn:Hk.
  - destruct (decide (involves id x)) as [Hi|Hi].
    + transitivity (@None Relationship).
      * rewrite <- (stored_rel_key s Hwf k x Hk). apply Hgone.
        apply list_elem_of_filter. split; [done|]. apply elem_of_values. by exists k.
      * symmetry. apply map_lookup_filter_None. right. intros y Hy Hn. simpl in *.
        apply Hn. congruence.
    + rewrite (Hkeep k x Hk Hi). symmetry. by apply map_lookup_filter_Some.
  - transitivity (@None Relationship).
    + destruct (relationships s' !! k) as [x|] eqn:Hx; [|done].
      apply Hsub in Hx. congruence.
    + symmetry. apply map_lookup_filter_None. by left.
Qed.

Lemma store_wf_deleteRelationship id s :
  store_wf s → store_wf (deleteRelationship id s).2.
Proof.
  intros Hwf. destruct (relationships s !! id) as [r|] eqn:Hid.
  - rewrite (deleteRelationship_stored s Hwf id r Hid).
    destruct Hwf as (Hp & Hr & ? & ?). unfold store_wf; simpl.
    split; [done|]. split; [|done].
    intros k x [Hk _]%map_lookup_filter_Some. by apply Hr.
  - by rewrite deleteRelationship_missing.
Qed.

Lemma store_wf_deletePerson id s : store_wf s → store_wf (deletePerson id s).2.
Proof.
  intros Hwf. rewrite deletePerson_spec by done.
  destruct Hwf as (Hp & Hr & ? & ?). unfold store_wf; simpl.
  split; [|split; [|done]].
  - intros k p [_ Hk]%lookup_delete_Some. by apply Hp.
  - intros k x [Hk _]%map_lookup_filter_Some. by apply Hr.
Qed.

Lemma store_wf_call s c : store_wf s → store_wf (call s c).
Proof.
  intros Hwf. destruct c; simpl.
  - by apply store_wf_createPerson.
  - by apply store_wf_updatePerson.
  - by apply store_wf_deletePerson.
  - by apply store_wf_createRelationship.
  - by apply store_wf_deleteRelationship.
Qed.

Lemma store_wf_run calls s : store_wf s → store_wf (run calls s).
Proof.
  unfold run. revert s. induction calls as [|c calls IH]; intros s Hwf; simpl.
  - done.
  - apply IH. by apply store_wf_call.
Qed.

Lemma store_wf_reachable s : reachable s → store_wf s.
Proof. intros [calls ->]. apply store_wf_run, store_wf_constructor. Qed.

(** *** createRelationship *)

Lemma add_reciprocal_other when recip insert s :
  ir_type insert ≠ when → add_reciprocal when recip insert s = s.
Proof. intros H. unfold add_reciprocal. by rewrite decide_False. Qed.

Lemma add_reciprocal_same recip insert s :
  add_reciprocal (ir_type insert) recip insert s =
  {| persons := persons s;
     relationships :=
       <[currentRelationshipId s :=
           {| rel_id := currentRelationshipId s; rel_type := recip;
              personId := ir_relatedPersonId insert;
              relatedPersonId := ir_personId insert |}]> (relationships s);
     currentPersonId := currentPersonId s;
     currentRelationshipId := currentRelationshipId s + 1 |}.
Proof. unfold add_reciprocal. by rewrite decide_True. Qed.

(** [createRelationship] in closed form, for the four types of the schema. *)
Lemma createRelationship_known insert s :
  known_type (ir_type insert) →
  let id := currentRelationshipId s in
  createRelationship insert s =
    (spread_relationship insert id,
     {| persons := persons s;
        relationships :=
          <[id + 1 := {| rel_id := id + 1;
                         rel_type := getReciprocalType (ir_type insert);
                         personId := ir_relatedPersonId insert;
                         relatedPersonId := ir_personId insert |}]>
            (<[id := spread_relationship insert id]> (relationships s));
        currentPersonId := currentPersonId s;
        currentRelationshipId := id + 1 + 1 |}).
Proof.
  destruct insert as [t a b]. unfold known_type. simpl.
  intros [->|[->|[->| ->]]]; reflexivity.
Qed.

(** ... and for any other type: nothing but the request is stored. *)
Lemma createRelationship_unknown insert s :
  ¬ known_type (ir_type insert) →
  let id := currentRelationshipId s in
  createRelationship insert s =
    (spread_relationship insert id,
     {| persons := persons s;
        relationships := <[id := spread_relationship insert id]> (relationships s);
        currentPersonId := currentPersonId s;
        currentRelationshipId := id + 1 |}).
Proof.
  intros Hk. unfold createRelationship, known_type in *.
  rewrite !add_reciprocal_other by tauto. done.
Qed.

Lemma getReciprocalType_known t : known_type t → known_type (getReciprocalType t).
Proof. unfold known_type. intros [->|[->|[->| ->]]]; vm_compute; tauto. Qed.

Lemma getReciprocalType_involutive t :
  getReciprocalType (getReciprocalType t) = t.
Proof.
  unfold getReciprocalType.
  repeat (case_decide; simplify_eq; try done).
Qed.

Lemma is_reciprocal_of_sym r r' : is_reciprocal_of r r' → is_reciprocal_of r' r.
Proof.
  intros (Hp & Hq & Ht). unfold is_reciprocal_of.
  rewrite Ht, getReciprocalType_involutive. done.
Qed.

(** *** Counters *)

Lemma counters_mono_call s c :
  store_wf s →
  currentPersonId s ≤ currentPersonId (call s c) ∧
  currentRelationshipId s ≤ currentRelationshipId (call s c).
Proof.
  intros Hwf. destruct c as [p|id p|id|r|id]; cbn [call].
  - simpl. lia.
  - unfold updatePerson. destruct (persons s !! id); simpl; lia.
  - rewrite deletePerson_spec by done. simpl. lia.
  - destruct (decide (known_type (ir_type r))) as [Hk|Hk].
    + rewrite createRelationship_known by done. simpl. lia.
    + rewrite createRelationship_unknown by done. simpl. lia.
  - destruct (relationships s !! id) as [r|] eqn:Hid.
    + rewrite (deleteRelationship_stored s Hwf id r Hid). simpl. lia.
    + rewrite deleteRelationship_missing by done. simpl. lia.
Qed.

Lemma counters_mono_run calls s :
  store_wf s →
  currentPersonId s ≤ currentPersonId (run calls s) ∧
  currentRelationshipId s ≤ currentRelationshipId (run calls s).
Proof.
  unfold run. revert s. induction calls as [|c calls IH]; intros s Hwf; simpl.
  - lia.
  - pose proof (counters_mono_call s c Hwf).
    pose proof (IH (call s c) (store_wf_call s c Hwf)). lia.
Qed.

Lemma stored_ids_NoDup {V} (m : gmap Z V) (id : V → Z) :
  (∀ k v, m !! k = Some v → id v = k) → NoDup (id <$> values m).
Proof.
  intros Hid. unfold values.
  replace (id <$> (map_to_list m).*2) with ((map_to_list m).*1).
  - apply NoDup_fst_map_to_list.
  - rewrite <- list_fmap_compose. apply Forall_fmap_ext_1, Forall_forall.
    intros [k v] Hkv%elem_of_map_to_list. simpl. symmetry. by apply Hid.
Qed.

(** C7.  Ids come from counters that start at 1 and only grow.  At the
    state reached by any sequence of calls, [createPerson] hands out the
    value of the person counter and [createRelationship] files the
    relationship and its reciprocal under ids taken from the relationship
    counter; these ids exceed the id of every record stored at any earlier
    state, and the ids of the stored persons, and of the stored
    relationships, are pairwise distinct. *)
Theorem ids_auto_increment (before after : list Call) :
  let s0 := run before constructor in
  let s := run after s0 in
  (currentPersonId constructor = 1 ∧ currentRelationshipId constructor = 1) ∧
  (∀ insertPerson,
     let '(person, s') := createPerson insertPerson s in
     person_id person = currentPersonId s ∧
     currentPersonId s' = person_id person + 1 ∧
     persons s' !! person_id person = Some person ∧
     ∀ p0, stored (persons s0) p0 → person_id p0 < person_id person) ∧
  (∀ insertRelationship,
     let '(relationship, s') := createRelationship insertRelationship s in
     rel_id relationship = currentRelationshipId s ∧
     relationships s' !! rel_id relationship = Some relationship ∧
     ∀ k r, relationships s !! k = None → relationships s' !! k = Some r →
       rel_id r = k ∧
       currentRelationshipId s ≤ k < currentRelationshipId s' ∧
       ∀ r0, stored (relationships s0) r0 → rel_id r0 < rel_id r) ∧
  NoDup (person_id <$> values (persons s)) ∧
  NoDup (rel_id <$> values (relationships s)).
Proof.
  intros s0 s.
  assert (store_wf s0) as Hwf0 by apply store_wf_run, store_wf_constructor.
  assert (store_wf s) as Hwf by by apply store_wf_run.
  destruct (counters_mono_run after s0 Hwf0) as [Hmp Hmr]. fold s in Hmp, Hmr.
  split; [done|]. split; [|split; [|split]].
  - intros insertPerson. simpl. split; [done|]. split; [done|].
    split; [by rewrite lookup_insert_eq|].
    intros p0 [k Hk]. apply Hwf0 in Hk. lia.
  - intros insertRelationship.
    assert (∀ k, currentRelationshipId s ≤ k →
              ∀ r0, stored (relationships s0) r0 → rel_id r0 < k) as Hold.
    { intros k Hge r0 [k0 Hk0].
      destruct Hwf0 as (_ & Hr0 & _). apply Hr0 in Hk0. lia. }
    destruct (decide (known_type (ir_type insertRelationship))) as [Hk|Hk].
    + rewrite createRelationship_known by done. simpl.
      split; [done|]. split.
      { rewrite lookup_insert_ne by lia. by rewrite lookup_insert_eq. }
      intros k r Hnone [[<- <-]|[_ [[<- <-]|[_ H]]%lookup_insert_Some]]%lookup_insert_Some;
        simpl; [| |congruence].
      * split; [done|]. split; [lia|]. apply Hold. lia.
      * split; [done|]. split; [lia|]. apply Hold. lia.
    + rewrite createRelationship_unknown by done. simpl.
      split; [done|]. split; [by rewrite lookup_insert_eq|].
      intros k r Hnone [[<- <-]|[_ H]]%lookup_insert_Some; simpl; [|congruence].
      split; [done|]. split; [lia|]. apply Hold. lia.
  - apply stored_ids_NoDup. intros k p Hk. destruct Hwf as (Hp & _).
    by destruct (Hp k p Hk).
  - apply stored_ids_NoDup. intros k r Hk. destruct Hwf as (_ & Hr & _).
    by destruct (Hr k r Hk).
Qed.

(** *** Persons *)

(** C8.  [updatePerson id p] on a stored person answers and stores the
    record made of [p]'s fields under the same id, whatever the old record
    was, and touches no other person, no relationship and no counter; on an
    id that is not stored it answers [undefined] and changes nothing. *)
Theorem updatePerson_replaces_record (id : Z) (p : InsertPerson) (s : MemStorage) :
  (is_Some (persons s !! id) →
   ∃ updated s',
     updatePerson id p s = (Some updated, s') ∧
     person_id updated = id ∧
     name updated = ip_name p ∧
     gender updated = ip_gender p ∧
     birthDate updated = ip_birthDate p ∧
     birthPlace updated = ip_birthPlace p ∧
     deathDate updated = ip_deathDate p ∧
     notes updated = ip_notes p ∧
     persons s' !! id = Some updated ∧
     (∀ k, k ≠ id → persons s' !! k = persons s !! k) ∧
     relationships s' = relationships s ∧
     currentPersonId s' = currentPersonId s ∧
     currentRelationshipId s' = currentRelationshipId s) ∧
  (persons s !! id = None → updatePerson id p s = (None, s)).
Proof.
  unfold updatePerson. split.
  - intros [old Hold]. rewrite Hold.
    eexists _, _. split; [reflexivity|]. simpl.
    do 7 (split; [done|]). split; [by rewrite lookup_insert_eq|].
    split; [|done]. intros k Hk. by rewrite lookup_insert_ne.
  - intros Hnone. by rewrite Hnone.
Qed.

Lemma updatePerson_replaces_record_witness :
  let s := (createPerson (ip "Ada") constructor).2 in
  ∃ updated s',
    updatePerson 1 (ip "Grace") s = (Some updated, s') ∧
    person_id updated = 1 ∧
    name updated = "Grace" ∧
    gender updated = None ∧
    birthDate updated = None ∧
    birthPlace updated = None ∧
    deathDate updated = None ∧
    notes updated = None ∧
    persons s' !! 1 = Some updated ∧
    (∀ k, k ≠ 1 → persons s' !! k = persons s !! k) ∧
    relationships s' = relationships s ∧
    currentPersonId s' = currentPersonId s ∧
    currentRelationshipId s' = currentRelationshipId s.
Proof.
  intros s.
  apply (proj1 (updatePerson_replaces_record 1 (ip "Grace") s)).
  vm_compute. eauto.
Defined.

(** C4.  After [deletePerson id] no person is stored under [id] and no
    stored relationship has [id] as its [personId] or [relatedPersonId];
    every other person and every relationship that does not involve [id]
    is kept; the answer is [true] exactly when a person was stored under
    [id]. *)
Theorem deletePerson_cascades (id : Z) (s : MemStorage) (Hwf : store_wf s) :
  let '(answer, s') := deletePerson id s in
  persons s' !! id = None ∧
  (∀ r, stored (relationships s') r → ¬ involves id r) ∧
  (∀ k, k ≠ id → persons s' !! k = persons s !! k) ∧
  (∀ r, stored (relationships s) r → ¬ involves id r →
        stored (relationships s') r) ∧
  (answer = true ↔ is_Some (persons s !! id)).
Proof.
  rewrite deletePerson_spec by done. simpl.
  split; [apply lookup_delete_eq|]. split; [|split; [|split]].
  - intros r [k [_ Hk]%map_lookup_filter_Some]. done.
  - intros k Hk. by rewrite lookup_delete_ne.
  - intros r [k Hk] Hr. exists k. by apply map_lookup_filter_Some.
  - apply bool_decide_eq_true.
Qed.

Lemma deletePerson_cascades_witness :
  let s := run [CreatePerson (ip "Ada"); CreatePerson (ip "Byron");
                CreateRelationship (ir "parent" 2 1)] constructor in
  let '(answer, s') := deletePerson 1 s in
  persons s' !! 1 = None ∧
  (∀ r, stored (relationships s') r → ¬ involves 1 r) ∧
  (∀ k, k ≠ 1 → persons s' !! k = persons s !! k) ∧
  (∀ r, stored (relationships s) r → ¬ involves 1 r →
        stored (relationships s') r) ∧
  (answer = true ↔ is_Some (persons s !! 1)).
Proof.
  intros s. apply (deletePerson_cascades 1 s).
  apply store_wf_run, store_wf_constructor.
Defined.

(** C9.  When no person is stored under [id], [deletePerson id] answers
    [false] and leaves the persons untouched, yet the relationships that
    remain are exactly those that do not involve [id]: the relationships
    map is unchanged only if no stored relationship involved [id]. *)
Theorem deletePerson_missing_still_cascades (id : Z) (s : MemStorage)
    (Hwf : store_wf s) (Hmissing : persons s !! id = None) :
  let '(answer, s') := deletePerson id s in
  answer = false ∧
  persons s' = persons s ∧
  (∀ r, stored (relationships s') r ↔
        stored (relationships s) r ∧ ¬ involves id r) ∧
  (relationships s' = relationships s ↔
   ∀ r, stored (relationships s) r → ¬ involves id r).
Proof.
  rewrite deletePerson_spec by done. simpl.
  split; [|split; [|split]].
  - apply bool_decide_eq_false. rewrite Hmissing. by intros [? ?].
  - by apply delete_id.
  - intros r. split.
    + intros [k [Hk Hr]%map_lookup_filter_Some]. split; [by exists k|done].
    + intros [[k Hk] Hr]. exists k. by apply map_lookup_filter_Some.
  - split.
    + intros Heq r [k Hk] Hr. rewrite <- Heq in Hk.
      apply map_lookup_filter_Some in Hk as [_ Hk]. done.
    + intros Hall. apply map_filter_id. intros k r Hk. simpl.
      apply Hall. by exists k.
Qed.

Lemma deletePerson_missing_still_cascades_witness :
  let s := run [CreateRelationship (ir "parent" 7 8)] constructor in
  let '(answer, s') := deletePerson 7 s in
  answer = false ∧
  persons s' = persons s ∧
  (∀ r, stored (relationships s') r ↔
        stored (relationships s) r ∧ ¬ involves 7 r) ∧
  (relationships s' = relationships s ↔
   ∀ r, stored (relationships s) r → ¬ involves 7 r).
Proof.
  intros s. apply (deletePerson_missing_still_cascades 7 s).
  - apply store_wf_run, store_wf_constructor.
  - reflexivity.
Defined.

(** On that store the failed call does empty the relationships map. *)
Example deletePerson_missing_changes_relationships :
  let s := run [CreateRelationship (ir "parent" 7 8)] constructor in
  persons s !! 7 = None ∧
  size (relationships s) = 2%nat ∧
  deletePerson 7 s = (false, mkMemStorage ∅ ∅ 1 3).
Proof. vm_compute. done. Qed.

(** *** Relationships and their reciprocals *)

(** The method taken alone: a request whose type is none of the four
    would be stored without a second relationship.  The route validates
    the type with [relationshipFormSchema] before it calls the store, so
    no such request reaches it. *)
Lemma createRelationship_unknown_type_no_reciprocal :
  ¬ records_with_reciprocal (ir "cousin" 1 2) constructor.
Proof.
  unfold records_with_reciprocal.
  rewrite createRelationship_unknown by (vm_compute; intuition discriminate).
  simpl. intros (_ & _ & k & rel & Hk & Hrel & _).
  apply lookup_insert_Some in Hrel as [[? _]|[_ Hrel]]; [done|].
  by rewrite lookup_empty in Hrel.
Qed.

(** C2.  For a request of type parent, child, spouse or sibling (the
    types of the data model, and the only ones [relationshipFormSchema]
    lets through), [createRelationship] answers the requested
    relationship under the next id, stores it under that id, and stores
    under the id after it the relationship of the reciprocal type with
    the two persons swapped. *)
Theorem createRelationship_records_reciprocal
    (insertRelationship : InsertRelationship) (s : MemStorage)
    (Hknown : known_type (ir_type insertRelationship)) :
  records_with_reciprocal insertRelationship s ∧
  let '(result, s') := createRelationship insertRelationship s in
  relationships s' !! (rel_id result + 1) =
    Some {| rel_id := rel_id result + 1;
            rel_type := getReciprocalType (ir_type insertRelationship);
            personId := ir_relatedPersonId insertRelationship;
            relatedPersonId := ir_personId insertRelationship |} ∧
  (∀ k, k ≠ rel_id result → k ≠ rel_id result + 1 →
        relationships s' !! k = relationships s !! k) ∧
  persons s' = persons s.
Proof.
  unfold records_with_reciprocal.
  rewrite createRelationship_known by done. simpl.
  assert (<[currentRelationshipId s + 1 :=
             {| rel_id := currentRelationshipId s + 1;
                rel_type := getReciprocalType (ir_type insertRelationship);
                personId := ir_relatedPersonId insertRelationship;
                relatedPersonId := ir_personId insertRelationship |}]>
            (<[currentRelationshipId s :=
                 spread_relationship insertRelationship (currentRelationshipId s)]>
               (relationships s)) !! currentRelationshipId s =
          Some (spread_relationship insertRelationship (currentRelationshipId s)))
    as Hfirst.
  { rewrite lookup_insert_ne by lia. apply lookup_insert_eq. }
  split; [split; [done|split; [done|]]|split; [|split; [|done]]].
  - eexists (currentRelationshipId s + 1), _.
    split; [lia|]. split; [apply lookup_insert_eq|]. done.
  - apply lookup_insert_eq.
  - intros k ? ?. by rewrite !lookup_insert_ne.
Qed.

Lemma createRelationship_records_reciprocal_witness :
  records_with_reciprocal (ir "parent" 1 2) constructor ∧
  let '(result, s') := createRelationship (ir "parent" 1 2) constructor in
  relationships s' !! (rel_id result + 1) =
    Some {| rel_id := rel_id result + 1;
            rel_type := getReciprocalType "parent";
            personId := 2;
            relatedPersonId := 1 |} ∧
  (∀ k, k ≠ rel_id result → k ≠ rel_id result + 1 →
        relationships s' !! k = relationships constructor !! k) ∧
  persons s' = persons constructor.
Proof.
  apply (createRelationship_records_reciprocal (ir "parent" 1 2) constructor).
  vm_compute. tauto.
Defined.

(** What [deleteRelationship] removes: a stored relationship and all its
    stored reciprocals and nothing else; an id that is not stored leaves
    the store as it was and is answered [false]. *)
Lemma deleteRelationship_removes (id : Z) (s : MemStorage) :
  store_wf s →
  (∀ relationship, relationships s !! id = Some relationship →
     let s' := (deleteRelationship id s).2 in
     (∀ rel, stored (relationships s') rel ↔
        stored (relationships s) rel ∧ rel_id rel ≠ id ∧
        ¬ is_reciprocal_of relationship rel) ∧
     persons s' = persons s) ∧
  (relationships s !! id = None → deleteRelationship id s = (false, s)).
Proof.
  intros Hwf. split; [|apply deleteRelationship_missing].
  intros r Hid. rewrite (deleteRelationship_stored s Hwf id r Hid). simpl.
  split; [|done]. intros rel. split.
  - intros [k [Hk [Hne Hrec]]%map_lookup_filter_Some]. simpl in *.
    split; [by exists k|]. by rewrite (stored_rel_key s Hwf k rel Hk).
  - intros [[k Hk] [Hne Hrec]]. exists k. apply map_lookup_filter_Some.
    split; [done|]. simpl. by rewrite <- (stored_rel_key s Hwf k rel Hk).
Qed.

(** C3.  A relationship from a person to that same person, of type spouse
    or sibling, is a reciprocal of itself.  [createRelationship] stores two
    of them, under ids 1 and 2; [deleteRelationship 1] then removes both in
    its loop over the reciprocals, the final [Map.delete] finds nothing
    left under id 1, and the call answers [false] for a relationship that
    was stored and has been removed. *)
Theorem deleteRelationship_self_reciprocal_answers_false :
  let s := (createRelationship (ir "spouse" 1 1) constructor).2 in
  relationships s !! 1 = Some (mkRelationship 1 "spouse" 1 1) ∧
  relationships s !! 2 = Some (mkRelationship 2 "spouse" 1 1) ∧
  deleteRelationship 1 s = (false, mkMemStorage ∅ ∅ 1 3).
Proof. vm_compute. done. Qed.

(** In general the answer for a stored relationship is [false] exactly when
    it is a reciprocal of itself. *)
Lemma deleteRelationship_answer (id : Z) (s : MemStorage) relationship :
  store_wf s → relationships s !! id = Some relationship →
  (deleteRelationship id s).1 = true ↔ ¬ is_reciprocal_of relationship relationship.
Proof.
  intros Hwf Hid. rewrite (deleteRelationship_stored s Hwf id _ Hid). simpl.
  apply bool_decide_eq_true.
Qed.

(** C1.  Two identical requests "1 is parent of 2" store relationships
    1 (parent 1→2), 2 (child 2→1), 3 (parent 1→2) and 4 (child 2→1).
    [deleteRelationship 1] removes relationship 1 and every reciprocal of
    it, that is 2 and 4, and leaves relationship 3 without a mirror. *)
Theorem mirror_invariant_broken_by_duplicates :
  let s := run [CreateRelationship (ir "parent" 1 2);
                CreateRelationship (ir "parent" 1 2);
                DeleteRelationship 1] constructor in
  relationships s = {[ 3 := mkRelationship 3 "parent" 1 2 ]} ∧
  ¬ mirrored s.
Proof.
  intros s.
  assert (relationships s = {[ 3 := mkRelationship 3 "parent" 1 2 ]}) as Hs
    by (vm_compute; reflexivity).
  split; [done|]. intros Hm.
  destruct (Hm (mkRelationship 3 "parent" 1 2)) as (r' & [k Hk] & Hrec).
  { exists 3. by rewrite Hs, lookup_singleton_eq. }
  { by left. }
  rewrite Hs in Hk. apply lookup_singleton_Some in Hk as [_ <-].
  destruct Hrec as (Hp & _). discriminate Hp.
Qed.

(** Every other call keeps the invariant, and so does [deleteRelationship]
    on a relationship that is stored once. *)
Lemma mirrored_same_relationships s s' :
  relationships s' = relationships s → mirrored s → mirrored s'.
Proof. unfold mirrored. by intros ->. Qed.

Lemma mirrored_createRelationship insert s :
  store_wf s → mirrored s → mirrored (createRelationship insert s).2.
Proof.
  intros Hwf Hm.
  assert (∀ k, currentRelationshipId s ≤ k → relationships s !! k = None) as Hfresh.
  { intros k Hk. destruct (relationships s !! k) as [x|] eqn:Hx; [|done].
    destruct Hwf as (_ & Hr & _). apply Hr in Hx. lia. }
  destruct (decide (known_type (ir_type insert))) as [Hk|Hk].
  - rewrite createRelationship_known by done. simpl.
    set (id := currentRelationshipId s).
    set (rel := spread_relationship insert id).
    set (rec := {| rel_id := id + 1;
                   rel_type := getReciprocalType (ir_type insert);
                   personId := ir_relatedPersonId insert;
                   relatedPersonId := ir_personId insert |}).
    assert (is_reciprocal_of rel rec) as Hrec by done.
    assert (stored (<[id + 1 := rec]> (<[id := rel]> (relationships s))) rec)
      as Hsrec by (exists (id + 1); apply lookup_insert_eq).
    assert (stored (<[id + 1 := rec]> (<[id := rel]> (relationships s))) rel)
      as Hsrel.
    { exists id. rewrite lookup_insert_ne by lia. apply lookup_insert_eq. }
    intros r [k Hr] Hkt. simpl in Hr.
    apply lookup_insert_Some in Hr as [[_ <-]|[_ Hr]].
    { exists rel. split; [done|]. by apply is_reciprocal_of_sym. }
    apply lookup_insert_Some in Hr as [[_ <-]|[_ Hr]].
    { by exists rec. }
    destruct (Hm r) as (r' & [k' Hr'] & Hrr'); [by exists k|done|].
    exists r'. split; [|done]. exists k'.
    assert (k' < id) by (destruct Hwf as (_ & Hw & _); apply Hw in Hr'; lia).
    simpl. by rewrite !lookup_insert_ne by lia.
  - rewrite createRelationship_unknown by done. simpl.
    intros r [k Hr] Hkt. simpl in Hr.
    apply lookup_insert_Some in Hr as [[_ <-]|[_ Hr]]; [done|].
    destruct (Hm r) as (r' & [k' Hr'] & Hrr'); [by exists k|done|].
    exists r'. split; [|done]. exists k'.
    assert (k' < currentRelationshipId s)
      by (destruct Hwf as (_ & Hw & _); apply Hw in Hr'; lia).
    simpl. by rewrite lookup_insert_ne by lia.
Qed.

Lemma mirrored_deletePerson id s :
  store_wf s → mirrored s → mirrored (deletePerson id s).2.
Proof.
  intros Hwf Hm. rewrite deletePerson_spec by done. simpl.
  intros r [k [Hr Hni]%map_lookup_filter_Some] Hkt. simpl in Hni.
  destruct (Hm r) as (r' & [k' Hr'] & Hrr'); [by exists k|done|].
  exists r'. split; [|done]. exists k'. apply map_lookup_filter_Some.
  split; [done|]. simpl. intros [Hi|Hi]; apply Hni;
    destruct Hrr' as (Hp & Hq & _); [right|left]; congruence.
Qed.

Lemma getReciprocalType_inj t t' :
  getReciprocalType t = getReciprocalType t' → t = t'.
Proof.
  intros H. rewrite <- (getReciprocalType_involutive t), H.
  apply getReciprocalType_involutive.
Qed.

Lemma mirrored_deleteRelationship id s r :
  store_wf s → mirrored s →
  relationships s !! id = Some r →
  (∀ x, stored (relationships s) x → rel_type x = rel_type r →
        personId x = personId r → relatedPersonId x = relatedPersonId r →
        x = r) →
  mirrored (deleteRelationship id s).2.
Proof.
  intros Hwf Hm Hid Honce. rewrite (deleteRelationship_stored s Hwf id r Hid).
  simpl. intros x [k [Hx [Hne Hnrec]]%map_lookup_filter_Some] Hkt. simpl in *.
  destruct (Hm x) as (x' & [k' Hx'] & Hxx'); [by exists k|done|].
  exists x'. split; [|done]. exists k'. apply map_lookup_filter_Some.
  split; [done|]. simpl. split.
  - intros ->. apply Hnrec. apply is_reciprocal_of_sym. congruence.
  - intros (Hp & Hq & Ht). destruct Hxx' as (Hp' & Hq' & Ht').
    apply Hne. rewrite <- (stored_rel_key s Hwf k x Hx).
    rewrite (Honce x); [by apply (stored_rel_key s Hwf)|by exists k|..];
      [|congruence..].
    apply getReciprocalType_inj. congruence.
Qed.

(** ** The tree builder *)

(** *** The objects allocated for the persons *)

Lemma allocate_lookup persons : ∀ (m : gmap Z FamilyTreePerson) a n,
  foldl (λ m person, <[person_id person := new_tree_person person]> m) m persons
    !! a = Some n →
  (∃ p, p ∈ persons ∧ person_id p = a ∧ n = new_tree_person p) ∨ m !! a = Some n.
Proof.
  induction persons as [|p persons IH]; intros m a n; simpl.
  - by right.
  - intros [(q & Hq & Ha & Hn)|Hm]%IH.
    + left. exists q. split; [apply elem_of_cons; by right|done].
    + apply lookup_insert_Some in Hm as [[<- <-]|[_ Hm]]; [|by right].
      left. exists p. split; [apply elem_of_cons; by left|done].
Qed.

Lemma allocate_is_Some persons : ∀ (m : gmap Z FamilyTreePerson) a,
  is_Some (foldl (λ m person, <[person_id person := new_tree_person person]> m)
                 m persons !! a) ↔
  a ∈ person_id <$> persons ∨ is_Some (m !! a).
Proof.
  induction persons as [|p persons IH]; intros m a.
  - simpl. rewrite elem_of_nil. tauto.
  - rewrite fmap_cons. simpl foldl.
    rewrite IH, elem_of_cons, lookup_insert_is_Some.
    clear IH. destruct (decide (person_id p = a)); intuition congruence.
Qed.

(** *** One relationship *)

Lemma connect_lookup (m : gmap Z FamilyTreePerson) r a :
  connect m r !! a =
  if decide (a = personId r ∧ is_Some (m !! relatedPersonId r))
  then link r (relatedPersonId r) <$> m !! a
  else m !! a.
Proof.
  unfold connect.
  destruct (m !! personId r) as [person|] eqn:Hp;
    destruct (m !! relatedPersonId r) as [relatedPerson|] eqn:Hq.
  - rewrite lookup_alter. destruct (decide (personId r = a)) as [<-|Hne].
    + by rewrite decide_True by eauto.
    + rewrite decide_False; [done|]. by intros [-> _].
  - rewrite decide_False; [done|]. by intros [_ [? ?]].
  - case_decide as H; [|done]. destruct H as [-> _]. by rewrite Hp.
  - rewrite decide_False; [done|]. by intros [_ [? ?]].
Qed.

Lemma connect_is_Some (m : gmap Z FamilyTreePerson) r a :
  is_Some (connect m r !! a) ↔ is_Some (m !! a).
Proof. rewrite connect_lookup. case_decide; [|done]. by rewrite fmap_is_Some. Qed.

Lemma link_person r x n : ftp_person (link r x n) = ftp_person n.
Proof. unfold link. by repeat case_decide. Qed.

(** *** All relationships, one array at a time *)

Section one_array.
(** [proj] is the array that relationships of type [t] are pushed on. *)
Variable proj : FamilyTreePerson → option (list Z).
Variable t : string.
Hypothesis proj_link : ∀ r x n,
  proj (link r x n) =
  if decide (rel_type r = t) then push_opt x (proj n) else proj n.

Lemma connect_all_array rels : ∀ (m : gmap Z FamilyTreePerson) a n0,
  m !! a = Some n0 →
  ∃ n, foldl connect m rels !! a = Some n ∧
       ftp_person n = ftp_person n0 ∧
       proj n =
         (λ l, l ++ (relatedPersonId <$>
                       filter (λ r, rel_type r = t ∧ personId r = a ∧
                                    is_Some (m !! relatedPersonId r)) rels))
         <$> proj n0.
Proof.
  induction rels as [|r rels IH]; intros m a n0 Ha.
  - exists n0. simpl. split; [done|]. split; [done|].
    destruct (proj n0); simpl; [|done]. by rewrite app_nil_r.
  - simpl foldl.
    assert (∀ r', (rel_type r' = t ∧ personId r' = a ∧
                     is_Some (connect m r !! relatedPersonId r')) ↔
                  (rel_type r' = t ∧ personId r' = a ∧
                     is_Some (m !! relatedPersonId r'))) as Hdom
      by (intros r'; by rewrite connect_is_Some).
    pose proof (connect_lookup m r a) as Hstep. rewrite Ha in Hstep.
    case_decide as Hhit.
    + destruct (IH _ _ _ Hstep) as (n & Hn & Hperson & Harr).
      exists n. split; [done|]. split; [by rewrite Hperson, link_person|].
      rewrite Harr, proj_link, (list_filter_iff _ _ _ Hdom).
      destruct Hhit as [-> Hq].
      destruct (decide (rel_type r = t)) as [Ht|Ht].
      * rewrite filter_cons_True by done.
        destruct (proj n0); simpl; [|done]. by rewrite <- app_assoc.
      * rewrite filter_cons_False by (by intros [? _]). done.
    + destruct (IH _ _ _ Hstep) as (n & Hn & Hperson & Harr).
      exists n. split; [done|]. split; [done|].
      rewrite Harr, (list_filter_iff _ _ _ Hdom).
      rewrite filter_cons_False; [done|].
      intros (_ & Hp & Hq). apply Hhit. by split.
Qed.
End one_array.

Lemma children_link r x n :
  children (link r x n) =
  if decide (rel_type r = "parent") then push_opt x (children n) else children n.
Proof. unfold link. repeat case_decide; simplify_eq; done. Qed.

Lemma parents_link r x n :
  parents (link r x n) =
  if decide (rel_type r = "child") then push_opt x (parents n) else parents n.
Proof. unfold link. repeat case_decide; simplify_eq; try done; congruence. Qed.

Lemma spouses_link r x n :
  spouses (link r x n) =
  if decide (rel_type r = "spouse") then push_opt x (spouses n) else spouses n.
Proof. unfold link. repeat case_decide; simplify_eq; try done; congruence. Qed.

Lemma siblings_link r x n :
  siblings (link r x n) =
  if decide (rel_type r = "sibling") then push_opt x (siblings n) else siblings n.
Proof. unfold link. repeat case_decide; simplify_eq; try done; congruence. Qed.

Lemma connect_all_is_Some rels : ∀ (m : gmap Z FamilyTreePerson) a,
  is_Some (foldl connect m rels !! a) ↔ is_Some (m !! a).
Proof.
  induction rels as [|r rels IH]; intros m a; simpl; [done|].
  by rewrite IH, connect_is_Some.
Qed.

(** *** The heap that [buildFamilyTree] leaves behind *)

Lemma buildFamilyTree_heap data :
  data_persons data ≠ [] →
  heap (buildFamilyTree data) =
  foldl connect
    (foldl (λ m person, <[person_id person := new_tree_person person]> m)
           ∅ (data_persons data))
    (data_relationships data).
Proof.
  intros Hne. unfold buildFamilyTree. case_decide as Hlen; [|done].
  by apply nil_length_inv in Hlen.
Qed.

Lemma buildFamilyTree_is_Some data a :
  is_Some (heap (buildFamilyTree data) !! a) ↔ a ∈ person_id <$> data_persons data.
Proof.
  destruct (data_persons data) as [|p ps] eqn:Hps.
  - unfold buildFamilyTree. rewrite Hps. simpl. rewrite lookup_empty, elem_of_nil.
    split; [by intros [? ?]|done].
  - rewrite buildFamilyTree_heap by (by rewrite Hps).
    rewrite connect_all_is_Some, allocate_is_Some, lookup_empty, Hps.
    split; [intros [?|[? ?]]; done|by left].
Qed.

Lemma buildFamilyTree_node data a node :
  heap (buildFamilyTree data) !! a = Some node →
  ftp_id node = a ∧
  ftp_person node ∈ data_persons data ∧
  children node = Some (related "parent" data a) ∧
  parents node = Some (related "child" data a) ∧
  spouses node = Some (related "spouse" data a) ∧
  siblings node = Some (related "sibling" data a).
Proof.
  intros Hnode.
  assert (data_persons data ≠ []) as Hne.
  { intros Hnil. unfold buildFamilyTree in Hnode. rewrite Hnil in Hnode.
    simpl in Hnode. by rewrite lookup_empty in Hnode. }
  rewrite buildFamilyTree_heap in Hnode by done.
  set (m0 := foldl (λ m person, <[person_id person := new_tree_person person]> m)
                   ∅ (data_persons data)) in *.
  assert (is_Some (m0 !! a)) as [n0 Hn0].
  { apply (connect_all_is_Some (data_relationships data)). by eexists. }
  destruct (allocate_lookup _ _ _ _ Hn0) as [(p & Hp & Ha & ->)|Hempty];
    [|by rewrite lookup_empty in Hempty].
  assert (∀ t r, (rel_type r = t ∧ personId r = a ∧
                    is_Some (m0 !! relatedPersonId r)) ↔
                 (rel_type r = t ∧ personId r = a ∧
                    relatedPersonId r ∈ person_id <$> data_persons data)) as Hdom.
  { intros t r. unfold m0. rewrite allocate_is_Some, lookup_empty.
    split; intros (? & ? & H); (split; [done|split; [done|]]).
    - destruct H as [?|[? ?]]; done.
    - by left. }
  assert (∀ proj t,
            (∀ r x n, proj (link r x n) =
               if decide (rel_type r = t) then push_opt x (proj n) else proj n) →
            proj (new_tree_person p) = Some [] →
            ftp_person node = p ∧ proj node = Some (related t data a)) as Harr.
  { intros proj t Hlink Hnew.
    destruct (connect_all_array proj t Hlink (data_relationships data) m0 a _ Hn0)
      as (n & Hn & Hperson & Hproj).
    assert (n = node) as -> by congruence.
    split; [done|].
    rewrite Hproj, Hnew. simpl. unfold related.
    by rewrite (list_filter_iff _ _ _ (Hdom t)). }
  destruct (Harr children "parent" children_link eq_refl) as [Hperson Hc].
  destruct (Harr parents "child" parents_link eq_refl) as [_ Hpa].
  destruct (Harr spouses "spouse" spouses_link eq_refl) as [_ Hsp].
  destruct (Harr siblings "sibling" siblings_link eq_refl) as [_ Hsi].
  unfold ftp_id. rewrite Hperson. done.
Qed.

(** *** Sorting by id *)

Lemma insert_by_Permutation {A} (key : A → Z) x l : insert_by key x l ≡ₚ x :: l.
Proof.
  induction l as [|y l IH]; simpl; [done|].
  case_decide; [done|]. rewrite IH. apply Permutation_swap.
Qed.

Lemma sort_by_Permutation {A} (key : A → Z) l : sort_by key l ≡ₚ l.
Proof.
  induction l as [|x l IH]; simpl; [done|].
  by rewrite insert_by_Permutation, IH.
Qed.

Lemma insert_by_HdRel {A} (key : A → Z) a x l :
  HdRel Z.le a (key <$> l) → a ≤ key x → HdRel Z.le a (key <$> insert_by key x l).
Proof.
  destruct l as [|y l]; simpl; intros Hhd Hle.
  - by constructor.
  - case_decide; simpl; constructor; [done|]. by inversion Hhd.
Qed.

Lemma insert_by_Sorted {A} (key : A → Z) x l :
  Sorted Z.le (key <$> l) → Sorted Z.le (key <$> insert_by key x l).
Proof.
  induction l as [|y l IH]; simpl; intros Hs.
  - by repeat constructor.
  - inversion Hs as [|? ? Hs' Hhd]; subst. case_decide; simpl.
    + constructor; [done|]. by constructor.
    + constructor; [by apply IH|]. apply insert_by_HdRel; [done|lia].
Qed.

Lemma sort_by_Sorted {A} (key : A → Z) l : Sorted Z.le (key <$> sort_by key l).
Proof.
  induction l as [|x l IH]; simpl; [constructor|]. by apply insert_by_Sorted.
Qed.

(** *** The roots *)

Lemma personsWithParents_spec (rels : list Relationship) : ∀ (acc : gset Z) a,
  a ∈ foldl (λ s r, {[personId r]} ∪ s) acc rels ↔
  a ∈ personId <$> rels ∨ a ∈ acc.
Proof.
  induction rels as [|r rels IH]; intros acc a.
  - simpl. rewrite elem_of_nil. tauto.
  - rewrite fmap_cons. simpl foldl.
    rewrite IH, elem_of_cons, elem_of_union, elem_of_singleton. tauto.
Qed.

Lemma rootCandidates_spec data a :
  a ∉ foldl (λ (s : gset Z) r, {[personId r]} ∪ s) ∅
        (filter (λ r, rel_type r = "child") (data_relationships data)) ↔
  ¬ has_recorded_parent data a.
Proof.
  apply not_iff_compat. rewrite personsWithParents_spec.
  unfold has_recorded_parent. rewrite Exists_exists, list_elem_of_fmap. split.
  - intros [(r & -> & [Ht Hr]%list_elem_of_filter)|H];
      [|by apply not_elem_of_empty in H].
    exists r. done.
  - intros (r & Hr & Ht & <-). left. exists r. split; [done|].
    by apply list_elem_of_filter.
Qed.

Lemma omap_lookup_ids (m : gmap Z FamilyTreePerson) (l : list Person) :
  (∀ p, p ∈ l → ∃ n, m !! person_id p = Some n ∧ ftp_id n = person_id p) →
  ftp_id <$> omap (λ p, m !! person_id p) l = person_id <$> l.
Proof.
  induction l as [|p l IH]; intros Hl; simpl; [done|].
  destruct (Hl p) as (n & Hn & Hid); [apply elem_of_cons; by left|].
  rewrite Hn. simpl. f_equal; [done|]. apply IH.
  intros q Hq. apply Hl, elem_of_cons. by right.
Qed.

Lemma buildFamilyTree_roots_eq data :
  roots (buildFamilyTree data) =
  sort_by ftp_id
    (omap (λ p, heap (buildFamilyTree data) !! person_id p)
          (filter (λ p, ¬ has_recorded_parent data (person_id p))
                  (data_persons data))).
Proof.
  unfold buildFamilyTree. case_decide as Hlen.
  - apply nil_length_inv in Hlen. by rewrite Hlen.
  - simpl. do 2 f_equal. apply list_filter_iff. intros p.
    apply rootCandidates_spec.
Qed.

Lemma buildFamilyTree_object data p :
  p ∈ data_persons data →
  ∃ n, heap (buildFamilyTree data) !! person_id p = Some n ∧
       ftp_id n = person_id p.
Proof.
  intros Hp.
  assert (is_Some (heap (buildFamilyTree data) !! person_id p)) as [n Hn].
  { apply buildFamilyTree_is_Some, list_elem_of_fmap. by exists p. }
  exists n. split; [done|]. by apply (buildFamilyTree_node data (person_id p) n).
Qed.

(** C5.  The ids of the roots that [buildFamilyTree] returns are, in
    ascending order, the ids of the input persons that are the [personId]
    of no relationship of type child; every root is the object allocated
    for an input person; and without persons there are no roots. *)
Theorem buildFamilyTree_roots (data : FamilyTreeData) :
  let forest := buildFamilyTree data in
  (Sorted Z.le (ftp_id <$> roots forest) ∧
   ftp_id <$> roots forest ≡ₚ
     person_id <$> filter (λ p, ¬ has_recorded_parent data (person_id p))
                          (data_persons data) ∧
   Forall (λ root, heap forest !! ftp_id root = Some root ∧
                   ftp_person root ∈ data_persons data ∧
                   ¬ has_recorded_parent data (ftp_id root))
          (roots forest)) ∧
  ∀ relationships,
    roots (buildFamilyTree {| data_persons := [];
                              data_relationships := relationships |}) = [].
Proof.
  intros forest. split; [|done]. unfold forest.
  rewrite buildFamilyTree_roots_eq.
  set (cands := filter (λ p, ¬ has_recorded_parent data (person_id p))
                       (data_persons data)).
  assert (∀ p, p ∈ cands → p ∈ data_persons data) as Hsub
    by (intros p [_ ?]%list_elem_of_filter; done).
  split; [apply sort_by_Sorted|]. split.
  - rewrite sort_by_Permutation, omap_lookup_ids; [done|].
    intros p Hp. by apply buildFamilyTree_object, Hsub.
  - apply Forall_forall. intros root Hroot.
    rewrite sort_by_Permutation in Hroot.
    apply list_elem_of_omap in Hroot as (p & Hp & Hroot).
    destruct (buildFamilyTree_node data _ _ Hroot) as (Hid & Hin & _).
    rewrite Hid. split; [done|]. split; [done|].
    by apply list_elem_of_filter in Hp as [? _].
Qed.

(** C6.  The object that [buildFamilyTree] allocates for person [a] carries
    one of the input persons with id [a], and its four arrays are read off
    the flat list: [children] holds the related persons of the
    relationships of type parent from [a], [parents] those of type child,
    [spouses] those of type spouse and [siblings] those of type sibling,
    each in list order and with the multiplicity of the list, counting
    only relationships whose two ids are ids of listed persons. *)
Theorem buildFamilyTree_derived_arrays (data : FamilyTreeData) (a : Z)
    (node : FamilyTreePerson)
    (Hnode : heap (buildFamilyTree data) !! a = Some node) :
  ftp_id node = a ∧
  ftp_person node ∈ data_persons data ∧
  children node = Some (related "parent" data a) ∧
  parents node = Some (related "child" data a) ∧
  spouses node = Some (related "spouse" data a) ∧
  siblings node = Some (related "sibling" data a).
Proof. by apply buildFamilyTree_node. Qed.

Lemma buildFamilyTree_derived_arrays_witness :
  let node := {| ftp_person := pers 1 "a"; children := Some [3];
                 parents := Some []; spouses := Some [2]; siblings := Some [] |} in
  ftp_id node = 1 ∧
  ftp_person node ∈ data_persons demo ∧
  children node = Some (related "parent" demo 1) ∧
  parents node = Some (related "child" demo 1) ∧
  spouses node = Some (related "spouse" demo 1) ∧
  siblings node = Some (related "sibling" demo 1).
Proof.
  intros node. apply (buildFamilyTree_derived_arrays demo 1 node).
  vm_compute. reflexivity.
Defined.

(** Every input person has its object, and the objects are the nodes: the
    roots and whatever their arrays refer to are filed in the heap. *)
Lemma buildFamilyTree_closed data a node :
  heap (buildFamilyTree data) !! a = Some node →
  ∀ x, x ∈ default [] (children node) ++ default [] (spouses node) →
       is_Some (heap (buildFamilyTree data) !! x).
Proof.
  intros Hnode x Hx.
  destruct (buildFamilyTree_node data a node Hnode) as (_ & _ & Hc & _ & Hs & _).
  rewrite Hc, Hs in Hx. simpl in Hx. apply buildFamilyTree_is_Some.
  unfold related in Hx.
  apply elem_of_app in Hx as [Hx|Hx];
    apply list_elem_of_fmap in Hx as (r & -> & Hr);
    apply list_elem_of_filter in Hr as [(_ & _ & ?) _]; done.
Qed.

(** ** The layout engine *)

(** *** The steps on the layout state *)

Lemma grows_refl st : grows st st.
Proof. split; [|lia]. intros i n Hn. by exists n. Qed.

Lemma grows_trans st1 st2 st3 : grows st1 st2 → grows st2 st3 → grows st1 st3.
Proof.
  intros (H12 & ? & ?) (H23 & ? & ?). split; [|lia].
  intros i n Hn. destruct (H12 i n Hn) as (n2 & Hn2 & Hb2).
  destruct (H23 i n2 Hn2) as (n3 & Hn3 & Hb3). exists n3. split; [done|congruence].
Qed.

Lemma grows_push_node n st : grows st (push_node n st).
Proof.
  split; [|simpl; lia]. intros i m Hm. exists m. split; [|done]. simpl.
  rewrite lookup_app_l; [done|]. by apply lookup_lt_Some in Hm.
Qed.

Lemma grows_push_connector c st : grows st (push_connector c st).
Proof. split; [|simpl; lia]. intros i n Hn. by exists n. Qed.

Lemma grows_update_max w h st : grows st (update_max w h st).
Proof. split; [|simpl; lia]. intros i n Hn. by exists n. Qed.

Lemma grows_update_node f r st :
  (∀ n, box (f n) = box n) → grows st (update_node f r st).
Proof.
  intros Hf. split; [|simpl; lia]. intros i n Hn. simpl.
  destruct (decide (r = i)) as [->|Hne].
  - exists (f n). by rewrite list_lookup_alter_eq, Hn.
  - exists n. by rewrite list_lookup_alter_ne.
Qed.

Lemma box_set_spouse r n : box (set_spouse r n) = box n.
Proof. done. Qed.

Lemma box_push_child_node r n : box (push_child_node r n) = box n.
Proof. done. Qed.

Lemma fits_box w h n n' : box n = box n' → fits w h n → fits w h n'.
Proof. unfold box, fits. intros [= -> -> -> -> _]. done. Qed.

Lemma fits_weaken w h w' h' n : w ≤ w' → h ≤ h' → fits w h n → fits w' h' n.
Proof. unfold fits. lia. Qed.

Lemma elem_of_seen st a :
  a ∈ seen st ↔ ∃ n, n ∈ st_nodes st ∧ ftp_id (node_person n) = a.
Proof.
  unfold seen. rewrite elem_of_list_to_set, list_elem_of_fmap. split.
  - intros (n & -> & Hn). by exists n.
  - intros (n & Hn & <-). by exists n.
Qed.

Lemma seen_grows st st' : grows st st' → seen st ⊆ seen st'.
Proof.
  intros [Hg _] a (n & Hn & Ha)%elem_of_seen. apply elem_of_seen.
  apply list_elem_of_lookup in Hn as [i Hi].
  destruct (Hg i n Hi) as (n' & Hn' & Hb). exists n'. split.
  - by apply list_elem_of_lookup_2 in Hn'.
  - unfold box in Hb. congruence.
Qed.

Lemma seen_push_node n st :
  seen (push_node n st) = seen st ∪ {[ftp_id (node_person n)]}.
Proof.
  unfold seen, push_node. cbn [st_nodes].
  rewrite fmap_app, list_to_set_app_L. simpl. by rewrite union_empty_r_L.
Qed.

Lemma already_placed_seen st child :
  already_placed st child ↔ ftp_id child ∈ seen st.
Proof.
  unfold already_placed. rewrite Exists_exists, elem_of_seen. done.
Qed.

Lemma pending_push_node w h n st :
  pending w h st → fits (Z.max (maxWidth st) w) (Z.max (maxHeight st) h) n →
  pending w h (push_node n st).
Proof.
  unfold pending. simpl. intros Hp Hn. apply Forall_app. split; [done|].
  by constructor.
Qed.

Lemma pending_push_connector w h c st :
  pending w h st → pending w h (push_connector c st).
Proof. done. Qed.

Lemma pending_update_node w h f r st :
  (∀ n, box (f n) = box n) → pending w h st → pending w h (update_node f r st).
Proof.
  unfold pending. simpl. intros Hf Hp. apply Forall_alter; [done|].
  intros n _. apply fits_box. by rewrite Hf.
Qed.

Lemma pending_weaken w h w' h' st st' :
  st_nodes st' = st_nodes st →
  Z.max (maxWidth st) w ≤ Z.max (maxWidth st') w' →
  Z.max (maxHeight st) h ≤ Z.max (maxHeight st') h' →
  pending w h st → pending w' h' st'.
Proof.
  unfold pending. intros -> Hw Hh Hp. eapply Forall_impl; [exact Hp|].
  intros n. by apply fits_weaken.
Qed.

Lemma size_list_to_set_le (l : list Z) :
  (size (list_to_set l : gset Z) ≤ length l)%nat.
Proof.
  induction l as [|x l IH].
  - rewrite list_to_set_nil, size_empty. done.
  - rewrite list_to_set_cons, size_union_alt, size_singleton.
    assert (list_to_set l ∖ {[x]} ⊆ (list_to_set l : gset Z)) as Hsub
      by (intros y [? _]%elem_of_difference; done).
    apply subseteq_size in Hsub. simpl. lia.
Qed.

Lemma size_heap_ids heap : (size (heap_ids heap) ≤ size heap)%nat.
Proof.
  unfold heap_ids, values. etrans; [apply size_list_to_set_le|].
  by rewrite !length_fmap, length_map_to_list.
Qed.

Lemma elem_of_heap_ids (heap : gmap Z FamilyTreePerson) a p :
  heap !! a = Some p → ftp_id p ∈ heap_ids heap.
Proof.
  intros Hp. unfold heap_ids. apply elem_of_list_to_set, list_elem_of_fmap.
  exists p. split; [done|]. apply elem_of_values. by exists a.
Qed.

#[global] Arguments push_node : simpl never.
#[global] Arguments push_connector : simpl never.
#[global] Arguments update_node : simpl never.
#[global] Arguments update_max : simpl never.

(** *** The spouse *)

Lemma place_spouse_spec heap person nodeRef level xOffset st w h :
  resolves heap person → 0 ≤ level → 0 ≤ xOffset →
  pending w h st →
  ∃ sp totalWidth st',
    place_spouse heap person nodeRef level xOffset st = Some (sp, totalWidth, st') ∧
    grows st st' ∧
    NODE_WIDTH ≤ totalWidth ∧
    pending (Z.max w (xOffset + totalWidth))
            (Z.max h (level * LEVEL_HEIGHT + NODE_HEIGHT)) st'.
Proof.
  intros Hres Hlevel Hx Hp. unfold place_spouse.
  assert (pending (Z.max w (xOffset + NODE_WIDTH))
                  (Z.max h (level * LEVEL_HEIGHT + NODE_HEIGHT)) st) as Hp'
    by (eapply pending_weaken; [done| | |exact Hp]; lia).
  destruct (spouses person) as [[|first rest]|] eqn:Hsp.
  - eexists _, _, _. split; [done|]. split; [apply grows_refl|]. split; [lia|done].
  - destruct (Hres first) as [spouse Hspouse].
    { rewrite Hsp. simpl. apply elem_of_app. right. apply elem_of_cons. by left. }
    rewrite Hspouse. simpl.
    eexists _, _, _. split; [reflexivity|]. split; [|split].
    + eapply grows_trans; [|apply grows_push_connector].
      eapply grows_trans; [|by apply grows_update_node].
      apply grows_push_node.
    + unfold NODE_WIDTH, SPOUSE_SPACING. lia.
    + apply pending_push_connector, pending_update_node; [done|].
      apply pending_push_node.
      * eapply pending_weaken; [done| | |exact Hp]; lia.
      * unfold fits, NODE_WIDTH, SPOUSE_SPACING, NODE_HEIGHT, LEVEL_HEIGHT in *.
        simpl. lia.
  - eexists _, _, _. split; [done|]. split; [apply grows_refl|]. split; [lia|done].
Qed.

Lemma pending_update_max w h a b st :
  pending w h st → pending w h (update_max a b st).
Proof.
  apply pending_weaken; [done| |]; unfold update_max; simpl; lia.
Qed.

(** *** The children *)

Section place_children.
Variable heap : gmap Z FamilyTreePerson.
Variable fuel : nat.
Variable recur :
  FamilyTreePerson → Z → Z → LayoutState → option (nat * LayoutState).
Hypothesis recur_places : places heap fuel recur.

(** [placedBefore] are the ids that had a node when [validChildren] was
    filtered; every child is new with respect to them. *)
Lemma place_children_spec node level childXOffset parentY
    (placedBefore : gset Z) validChildren :
  ∀ index st w h,
    Forall (λ child, resolves heap child ∧ ftp_id child ∈ heap_ids heap ∧
                     ftp_id child ∉ placedBefore) validChildren →
    0 ≤ level → 0 ≤ childXOffset → 0 ≤ index →
    (size (heap_ids heap ∖ placedBefore) ≤ fuel)%nat →
    placedBefore ⊆ seen st →
    pending w h st →
    ∃ st',
      place_children recur node level childXOffset parentY validChildren
                     index st = Some st' ∧
      grows st st' ∧ pending w h st'.
Proof.
  induction validChildren as [|child rest IH];
    intros index st w h Hall Hlevel Hx Hindex Hfuel Hplaced Hp.
  - exists st. split; [done|]. split; [apply grows_refl|done].
  - apply Forall_cons in Hall as [(Hres & Hid & Hnew) Hall].
    destruct (recur_places child (level + 1)
                (childXOffset + index * (NODE_WIDTH + SIBLING_SPACING)) st w h)
      as (r & st1 & Hrec & Hg1 & (n & Hn & Hy) & _ & Hp1);
      [done|lia|unfold NODE_WIDTH, SIBLING_SPACING; lia| |done|].
    { eapply Nat.lt_le_trans; [|exact Hfuel]. apply subset_size.
      split.
      - intros a [Ha Hna]%elem_of_difference. apply elem_of_difference.
        split; [done|]. intros Hin. apply Hna, elem_of_union. left. by apply Hplaced.
      - intros Hsub. specialize (Hsub (ftp_id child)).
        rewrite !elem_of_difference, elem_of_union, elem_of_singleton in Hsub.
        tauto. }
    simpl. rewrite Hrec. simpl. rewrite Hn. simpl.
    match goal with
    | |- ∃ st', place_children _ _ _ _ _ _ _ ?s = _ ∧ _ => set (st2 := s)
    end.
    assert (grows st1 st2) as Hg2.
    { eapply grows_trans; [|apply grows_update_max].
      eapply grows_trans; [|apply grows_push_connector].
      by apply grows_update_node. }
    destruct (IH (index + 1) st2 w h) as (st' & Hst' & Hg' & Hp');
      [done|done|done|lia|done| |..].
    { etrans; [exact Hplaced|]. apply seen_grows.
      by eapply grows_trans. }
    { by apply pending_update_max, pending_push_connector, pending_update_node. }
    exists st'. split; [done|]. split; [|done].
    eapply grows_trans; [exact Hg1|]. by eapply grows_trans.
Qed.
End place_children.

(** *** processNode *)

Lemma lookup_pushed n st : st_nodes (push_node n st) !! length (st_nodes st) = Some n.
Proof. unfold push_node. simpl. by rewrite list_lookup_middle. Qed.

Lemma children_resolve heap person :
  resolves heap person →
  ∃ childObjects,
    mapM (λ r, heap !! r) (default [] (children person)) = Some childObjects ∧
    Forall (λ child, ∃ a, heap !! a = Some child) childObjects.
Proof.
  intros Hres.
  destruct (mapM_is_Some_2 (λ r, heap !! r) (default [] (children person)))
    as [childObjects Hm].
  { apply Forall_forall. intros x Hx. apply Hres, elem_of_app. by left. }
  exists childObjects. split; [done|].
  apply mapM_Some_1 in Hm. apply Forall_forall. intros child Hchild.
  apply list_elem_of_lookup in Hchild as [i Hi].
  destruct (Forall2_lookup_r _ _ _ _ _ Hm Hi) as (a & _ & Ha). by exists a.
Qed.

Lemma processNode_places heap :
  heap_closed heap → ∀ fuel, places heap fuel (processNode fuel heap).
Proof.
  intros Hclosed fuel. induction fuel as [|fuel IH];
    intros person level xOffset st w h Hres Hlevel Hx Hfuel Hp; [lia|].
  cbn [processNode].
  set (node := {| node_x := xOffset; node_y := level * LEVEL_HEIGHT;
                  node_person := person; node_width := NODE_WIDTH;
                  node_height := NODE_HEIGHT; node_children := Some [];
                  node_spouse := None; node_level := level |}).
  set (st1 := push_node node st).
  assert (pending (Z.max w (xOffset + NODE_WIDTH))
                  (Z.max h (level * LEVEL_HEIGHT + NODE_HEIGHT)) st1) as Hp1.
  { apply pending_push_node.
    - eapply pending_weaken; [done| | |exact Hp]; lia.
    - unfold fits, NODE_WIDTH, NODE_HEIGHT, LEVEL_HEIGHT in *. simpl. lia. }
  destruct (place_spouse_spec heap person (length (st_nodes st)) level xOffset
              st1 _ _ Hres Hlevel Hx Hp1)
    as (sp & totalWidth & st2 & Hsp & Hg2 & Htw & Hp2).
  rewrite Hsp. cbn [mbind option_bind].
  destruct (children_resolve heap person Hres) as (childObjects & Hm & Hobjs).
  rewrite Hm. cbn [mbind option_bind].
  set (validChildren := filter (λ child, ¬ already_placed st2 child) childObjects).
  set (W := Z.max (Z.max w (xOffset + NODE_WIDTH)) (xOffset + totalWidth)) in *.
  set (H := Z.max (Z.max h (level * LEVEL_HEIGHT + NODE_HEIGHT))
                  (level * LEVEL_HEIGHT + NODE_HEIGHT)) in *.
  match goal with
  | |- ∃ r st', ?body ≫= _ = _ ∧ _ =>
      assert (∃ st3, body = Some st3 ∧ grows st2 st3 ∧ pending W H st3)
        as (st3 & Hst3 & Hg3 & Hp3)
  end.
  { destruct (decide (0 < length validChildren)%nat) as [Hlen|Hlen].
    - match goal with
      | |- ∃ st3, place_children _ _ _ ?cx _ _ _ ?s = _ ∧ _ =>
          set (childXOffset := cx); set (st2' := s)
      end.
      assert (grows st2 st2' ∧ pending W H st2') as [Hg2' Hp2'].
      { unfold st2'. case_decide.
        - split.
          + eapply grows_trans; apply grows_push_connector.
          + by do 2 apply pending_push_connector.
        - split; [apply grows_push_connector|by apply pending_push_connector]. }
      destruct (place_children_spec heap fuel (processNode fuel heap) IH
                  (length (st_nodes st)) level childXOffset
                  (node_y node + node_height node) (seen st2) validChildren
                  0 st2' W H) as (st3 & Hst3 & Hg3 & Hp3).
      + apply Forall_forall. intros child [Hnew Hchild]%list_elem_of_filter.
        rewrite already_placed_seen in Hnew.
        rewrite Forall_forall in Hobjs. destruct (Hobjs child Hchild) as [a Ha].
        split; [by eapply Hclosed|]. split; [by eapply elem_of_heap_ids|done].
      + done.
      + unfold childXOffset. lia.
      + done.
      + apply Nat.lt_succ_r. eapply Nat.le_lt_trans; [|exact Hfuel].
        apply subseteq_size. intros a [Ha Hna]%elem_of_difference.
        apply elem_of_difference. split; [done|]. intros Hin. apply Hna.
        apply (seen_grows st1 st2 Hg2). unfold st1. by rewrite seen_push_node.
      + by apply seen_grows.
      + done.
      + exists st3. split; [done|]. split; [by eapply grows_trans|done].
    - exists st2. split; [done|]. split; [apply grows_refl|done]. }
  rewrite Hst3. cbn [mbind option_bind].
  eexists _, _. split; [reflexivity|].
  assert (grows st1 (update_max (xOffset + totalWidth)
                                (level * LEVEL_HEIGHT + NODE_HEIGHT) st3)) as Hg.
  { eapply grows_trans; [exact Hg2|]. eapply grows_trans; [exact Hg3|].
    apply grows_update_max. }
  split; [|split; [|split]].
  - eapply grows_trans; [apply grows_push_node|exact Hg].
  - destruct Hg as [Hnodes _].
    destruct (Hnodes _ _ (lookup_pushed node st)) as (n' & Hn' & Hbox).
    exists n'. split; [done|]. unfold box in Hbox. by injection Hbox as _ -> _ _ _.
  - apply (seen_grows _ _ Hg). unfold st1. rewrite seen_push_node.
    apply elem_of_union. right. by apply elem_of_singleton.
  - apply (pending_weaken W H w h st3); [reflexivity| | |exact Hp3];
      unfold update_max, W, H; simpl; lia.
Qed.

(** *** The roots, and the whole layout *)

Lemma place_roots_spec heap rootPersons :
  heap_closed heap →
  ∀ xPos st,
    Forall (resolves heap) rootPersons →
    0 ≤ xPos → 0 ≤ maxWidth st → pending 0 0 st →
    ∃ st', place_roots (S (size heap)) heap rootPersons xPos st = Some st' ∧
           grows st st' ∧ pending 0 0 st'.
Proof.
  intros Hclosed. induction rootPersons as [|root rest IH];
    intros xPos st Hres Hx Hmax Hp.
  - exists st. split; [done|]. split; [apply grows_refl|done].
  - apply Forall_cons in Hres as [Hroot Hrest].
    destruct (processNode_places heap Hclosed (S (size heap)) root 0 xPos st 0 0)
      as (r & st1 & Hrun & Hg1 & _ & _ & Hp1); [done|lia|done| |done|].
    { apply Nat.lt_succ_r. etrans; [|apply size_heap_ids].
      apply subseteq_size. by intros a [? _]%elem_of_difference. }
    cbn [place_roots]. rewrite Hrun. cbn [mbind option_bind].
    destruct (IH (maxWidth st1 + SIBLING_SPACING) st1) as (st' & Hst' & Hg' & Hp');
      [done| | |done|].
    + destruct Hg1 as (_ & ? & _). unfold SIBLING_SPACING. lia.
    + destruct Hg1 as (_ & ? & _). lia.
    + exists st'. split; [done|]. split; [by eapply grows_trans|done].
Qed.

(** C10.  For every forest whose references resolve, [layoutFamilyTree]
    returns a layout, and every node of the layout (the nodes of the root
    persons, of the spouses and of all descendants are all pushed on
    [nodes]) has [x ≥ 0], [y ≥ 0], [x + width ≤ dimensions.width] and
    [y + height ≤ dimensions.height]. *)
Theorem layoutFamilyTree_nodes_within_dimensions
    (heap : gmap Z FamilyTreePerson) (rootPersons : list FamilyTreePerson)
    (Hclosed : heap_closed heap)
    (Hroots : Forall (resolves heap) rootPersons) :
  ∃ layout,
    layoutFamilyTree heap rootPersons = Some layout ∧
    Forall (within (dimensions layout)) (nodes layout).
Proof.
  unfold layoutFamilyTree, layout_with.
  set (st0 := {| st_nodes := []; st_connectors := [];
                 maxWidth := 0; maxHeight := 0 |}).
  destruct (place_roots_spec heap rootPersons Hclosed 0 st0)
    as (st & Hst & (_ & Hw & Hh) & Hp); [done|lia|done|by constructor|].
  rewrite Hst. cbn [mbind option_bind]. eexists. split; [reflexivity|].
  unfold within. simpl. unfold pending in Hp.
  eapply Forall_impl; [exact Hp|]. intros n.
  apply fits_weaken; simpl in *; lia.
Qed.

(** The forest that [buildFamilyTree] hands to [layoutFamilyTree] is one
    whose references resolve. *)
Lemma buildFamilyTree_heap_closed data : heap_closed (heap (buildFamilyTree data)).
Proof. intros a p Hp x Hx. by apply (buildFamilyTree_closed data a p). Qed.

Lemma buildFamilyTree_roots_in_heap data root :
  root ∈ roots (buildFamilyTree data) →
  heap (buildFamilyTree data) !! ftp_id root = Some root.
Proof.
  rewrite buildFamilyTree_roots_eq, sort_by_Permutation.
  intros (p & _ & Hroot)%list_elem_of_omap.
  destruct (buildFamilyTree_node data _ _ Hroot) as (-> & _). done.
Qed.

Lemma buildFamilyTree_roots_resolve data :
  Forall (resolves (heap (buildFamilyTree data))) (roots (buildFamilyTree data)).
Proof.
  apply Forall_forall. intros root Hroot%buildFamilyTree_roots_in_heap.
  by apply (buildFamilyTree_heap_closed data (ftp_id root)).
Qed.

Lemma layoutFamilyTree_nodes_within_dimensions_witness :
  ∃ layout,
    layoutFamilyTree (heap (buildFamilyTree demo)) (roots (buildFamilyTree demo))
      = Some layout ∧
    Forall (within (dimensions layout)) (nodes layout).
Proof.
  apply (layoutFamilyTree_nodes_within_dimensions
           (heap (buildFamilyTree demo)) (roots (buildFamilyTree demo))).
  - apply buildFamilyTree_heap_closed.
  - apply buildFamilyTree_roots_resolve.
Defined.

(** The layout of that forest: five nodes in a box of 1128 by 280. *)
Example layout_demo :
  (λ l, ((λ n, (node_x n, node_y n, ftp_id (node_person n))) <$> nodes l,
         dimensions l))
    <$> layoutFamilyTree (heap (buildFamilyTree demo)) (roots (buildFamilyTree demo))
  = Some ([(0, 0, 1); (288, 0, 2); (144, 160, 3); (584, 0, 2); (872, 0, 1)],
          {| dim_width := 1128; dim_height := 280 |}).
Proof. vm_compute. reflexivity. Qed.

(** *** The divisions of the layout are exact *)

(** Every quotient that [processNode] computes divides an even integer by
    two, so the integer division of the model is the division of the
    source. *)
Lemma layout_divisions_exact (n x : Z) :
  2 * (NODE_WIDTH / 2) = NODE_WIDTH ∧
  2 * (NODE_HEIGHT / 2) = NODE_HEIGHT ∧
  2 * (LEVEL_HEIGHT / 2) = LEVEL_HEIGHT ∧
  2 * ((x + NODE_WIDTH + SPOUSE_SPACING + NODE_WIDTH - x) / 2) =
    x + NODE_WIDTH + SPOUSE_SPACING + NODE_WIDTH - x ∧
  2 * ((n * NODE_WIDTH + (n - 1) * SIBLING_SPACING) / 2) =
    n * NODE_WIDTH + (n - 1) * SIBLING_SPACING.
Proof.
  unfold NODE_WIDTH, NODE_HEIGHT, LEVEL_HEIGHT, SPOUSE_SPACING, SIBLING_SPACING.
  repeat split; try reflexivity.
  - replace (x + 256 + 32 + 256 - x) with (272 * 2) by lia.
    by rewrite Z.div_mul.
  - replace (n * 256 + (n - 1) * 40) with ((148 * n - 20) * 2) by lia.
    rewrite Z.div_mul by done. lia.
Qed.

(** * Further properties *)

(** ** The record store: lookups, listings and repeated calls *)

Lemma values_insert_fresh {V} (m : gmap Z V) k v :
  m !! k = None → values (<[k := v]> m) ≡ₚ values m ++ [v].
Proof.
  intros Hk. unfold values. rewrite map_to_list_insert by done.
  rewrite fmap_cons. simpl. by rewrite Permutation_cons_append.
Qed.

Lemma values_NoDup {V} (m : gmap Z V) (id : V → Z) :
  (∀ k v, m !! k = Some v → id v = k) → NoDup (values m).
Proof. intros Hid. eapply NoDup_fmap_1. by apply stored_ids_NoDup. Qed.

(** X1.  [createPerson] files the new person under an id that was free;
    [getPerson] then finds it under that id, with the fields of the
    request; every other lookup answers as before, the listing gains the
    new person and nothing else, and the relationships are untouched. *)
Theorem createPerson_getPerson (insertPerson : InsertPerson) (s : MemStorage)
    (Hwf : store_wf s) :
  let '(person, s') := createPerson insertPerson s in
  getPerson (person_id person) s = None ∧
  getPerson (person_id person) s' = Some person ∧
  (name person = ip_name insertPerson ∧ gender person = ip_gender insertPerson ∧
   birthDate person = ip_birthDate insertPerson ∧
   birthPlace person = ip_birthPlace insertPerson ∧
   deathDate person = ip_deathDate insertPerson ∧
   notes person = ip_notes insertPerson) ∧
  (∀ id, id ≠ person_id person → getPerson id s' = getPerson id s) ∧
  getAllPersons s' ≡ₚ getAllPersons s ++ [person] ∧
  relationships s' = relationships s.
Proof.
  unfold createPerson, getPerson, getAllPersons. simpl.
  assert (persons s !! currentPersonId s = None) as Hfree.
  { destruct (persons s !! currentPersonId s) as [p|] eqn:Hp; [|done].
    destruct Hwf as (Hpers & _). apply Hpers in Hp. lia. }
  split; [done|]. split; [apply lookup_insert_eq|]. split; [done|].
  split; [|split; [|done]].
  - intros id Hid. by rewrite lookup_insert_ne.
  - by apply values_insert_fresh.
Qed.

Lemma createPerson_getPerson_witness :
  let s := (createPerson (ip "Ada") constructor).2 in
  let '(person, s') := createPerson (ip "Byron") s in
  getPerson (person_id person) s = None ∧
  getPerson (person_id person) s' = Some person ∧
  (name person = "Byron" ∧ gender person = None ∧
   birthDate person = None ∧ birthPlace person = None ∧
   deathDate person = None ∧ notes person = None) ∧
  (∀ id, id ≠ person_id person → getPerson id s' = getPerson id s) ∧
  getAllPersons s' ≡ₚ getAllPersons s ++ [person] ∧
  relationships s' = relationships s.
Proof.
  intros s. apply (createPerson_getPerson (ip "Byron") s).
  apply store_wf_createPerson, store_wf_constructor.
Defined.

(** X2.  The snapshot that [getFamilyTreeData] hands out agrees with the
    lookups: a person is listed exactly when [getPerson] finds it under
    its id, a relationship exactly when [getRelationship] does, and
    neither list has a repetition. *)
Theorem getFamilyTreeData_agrees_with_lookups (s : MemStorage)
    (Hwf : store_wf s) :
  let data := getFamilyTreeData s in
  (∀ p, p ∈ data_persons data ↔ getPerson (person_id p) s = Some p) ∧
  (∀ r, r ∈ data_relationships data ↔ getRelationship (rel_id r) s = Some r) ∧
  NoDup (data_persons data) ∧ NoDup (data_relationships data) ∧
  data_persons data = getAllPersons s.
Proof.
  destruct Hwf as (Hp & Hr & _).
  unfold getFamilyTreeData, getPerson, getRelationship, getAllPersons. simpl.
  split; [|split; [|split; [|split; [|done]]]].
  - intros p. rewrite elem_of_values. split; [|by eexists].
    intros [k Hk]. by destruct (Hp k p Hk) as [-> _].
  - intros r. rewrite elem_of_values. split; [|by eexists].
    intros [k Hk]. by destruct (Hr k r Hk) as [-> _].
  - apply (values_NoDup _ person_id). intros k p Hk. by destruct (Hp k p Hk).
  - apply (values_NoDup _ rel_id). intros k r Hk. by destruct (Hr k r Hk).
Qed.

Lemma getFamilyTreeData_agrees_with_lookups_witness :
  let s := run [CreatePerson (ip "Ada"); CreatePerson (ip "Byron");
                CreateRelationship (ir "parent" 2 1)] constructor in
  let data := getFamilyTreeData s in
  (∀ p, p ∈ data_persons data ↔ getPerson (person_id p) s = Some p) ∧
  (∀ r, r ∈ data_relationships data ↔ getRelationship (rel_id r) s = Some r) ∧
  NoDup (data_persons data) ∧ NoDup (data_relationships data) ∧
  data_persons data = getAllPersons s.
Proof.
  intros s. apply (getFamilyTreeData_agrees_with_lookups s).
  apply store_wf_run, store_wf_constructor.
Defined.

(** X3.  After [createRelationship] with one of the four types, the new
    relationship and its reciprocal are both found by [getRelationship]
    under consecutive ids, and [getRelationshipsByPerson] lists both of
    them for either of the two persons. *)
Theorem createRelationship_visible_from_both_persons
    (insertRelationship : InsertRelationship) (s : MemStorage)
    (Hknown : known_type (ir_type insertRelationship)) :
  let '(result, s') := createRelationship insertRelationship s in
  let reciprocal :=
    {| rel_id := rel_id result + 1;
       rel_type := getReciprocalType (rel_type result);
       personId := relatedPersonId result;
       relatedPersonId := personId result |} in
  getRelationship (rel_id result) s' = Some result ∧
  getRelationship (rel_id result + 1) s' = Some reciprocal ∧
  ∀ person, person = personId result ∨ person = relatedPersonId result →
    result ∈ getRelationshipsByPerson person s' ∧
    reciprocal ∈ getRelationshipsByPerson person s'.
Proof.
  rewrite createRelationship_known by done.
  unfold getRelationship, getRelationshipsByPerson. simpl.
  set (id := currentRelationshipId s).
  set (rel := spread_relationship insertRelationship id).
  set (rec := {| rel_id := id + 1;
                 rel_type := getReciprocalType (ir_type insertRelationship);
                 personId := ir_relatedPersonId insertRelationship;
                 relatedPersonId := ir_personId insertRelationship |}).
  assert (<[id + 1 := rec]> (<[id := rel]> (relationships s)) !! id = Some rel)
    as Hrel by (rewrite lookup_insert_ne by lia; apply lookup_insert_eq).
  assert (<[id + 1 := rec]> (<[id := rel]> (relationships s)) !! (id + 1) = Some rec)
    as Hrec by apply lookup_insert_eq.
  split; [done|]. split; [done|].
  intros person Hperson.
  split; apply list_elem_of_filter; (split; [|apply elem_of_values; by eexists]);
    destruct Hperson as [-> | ->]; unfold involves; simpl; auto.
Qed.

Lemma createRelationship_visible_from_both_persons_witness :
  let '(result, s') := createRelationship (ir "sibling" 4 5) constructor in
  let reciprocal :=
    {| rel_id := rel_id result + 1;
       rel_type := getReciprocalType (rel_type result);
       personId := relatedPersonId result;
       relatedPersonId := personId result |} in
  getRelationship (rel_id result) s' = Some result ∧
  getRelationship (rel_id result + 1) s' = Some reciprocal ∧
  ∀ person, person = personId result ∨ person = relatedPersonId result →
    result ∈ getRelationshipsByPerson person s' ∧
    reciprocal ∈ getRelationshipsByPerson person s'.
Proof.
  apply (createRelationship_visible_from_both_persons (ir "sibling" 4 5) constructor).
  vm_compute. tauto.
Defined.

(** X4.  Deleting the same relationship id a second time finds nothing:
    whatever the store and the id, the second [deleteRelationship] answers
    [false] and leaves the store exactly as the first call left it. *)
Theorem deleteRelationship_twice (id : Z) (s : MemStorage) :
  let s' := (deleteRelationship id s).2 in
  getRelationship id s' = None ∧
  deleteRelationship id s' = (false, s').
Proof.
  assert (relationships (deleteRelationship id s).2 !! id = None) as Hgone.
  { unfold deleteRelationship, map_delete_result.
    destruct (relationships s !! id) as [r|] eqn:Hid; simpl; [|done].
    apply lookup_delete_eq. }
  split; [done|]. by apply deleteRelationship_missing.
Qed.

(** X5.  After [deletePerson id] the person is not found, nothing is
    listed by [getRelationshipsByPerson id], and a second [deletePerson id]
    answers [false] and changes nothing. *)
Theorem deletePerson_twice (id : Z) (s : MemStorage) (Hwf : store_wf s) :
  let s' := (deletePerson id s).2 in
  getPerson id s' = None ∧
  getRelationshipsByPerson id s' = [] ∧
  deletePerson id s' = (false, s').
Proof.
  assert (store_wf (deletePerson id s).2) as Hwf' by by apply store_wf_deletePerson.
  revert Hwf'. rewrite (deletePerson_spec id s Hwf). simpl. intros Hwf'.
  set (s' := {| persons := delete id (persons s);
                relationships := filter (λ kv, ¬ involves id kv.2) (relationships s);
                currentPersonId := currentPersonId s;
                currentRelationshipId := currentRelationshipId s |}) in *.
  assert (∀ r, stored (relationships s') r → ¬ involves id r) as Hnone.
  { intros r [k [_ Hk]%map_lookup_filter_Some]. done. }
  split; [apply lookup_delete_eq|]. split.
  - unfold getRelationshipsByPerson. apply elem_of_nil_inv.
    intros r [Hi Hr%elem_of_values]%list_elem_of_filter. by apply (Hnone r).
  - rewrite (deletePerson_spec id s' Hwf'). unfold s' at 1 2 3 4. simpl.
    rewrite lookup_delete_eq, delete_delete_eq.
    rewrite bool_decide_eq_false_2 by (by intros [? ?]).
    f_equal. unfold s'. f_equal.
    apply map_filter_id. intros k r [_ Hk]%map_lookup_filter_Some. done.
Qed.

Lemma deletePerson_twice_witness :
  let s := run [CreatePerson (ip "Ada"); CreatePerson (ip "Byron");
                CreateRelationship (ir "parent" 2 1)] constructor in
  let s' := (deletePerson 1 s).2 in
  getPerson 1 s' = None ∧
  getRelationshipsByPerson 1 s' = [] ∧
  deletePerson 1 s' = (false, s').
Proof.
  intros s. apply (deletePerson_twice 1 s).
  apply store_wf_run, store_wf_constructor.
Defined.

(** ** The record store: when the mirror invariant is kept *)

Lemma repeats_spec r s :
  repeats r s ↔
  ∃ x, stored (relationships s) x ∧ rel_type x = ir_type r ∧
       personId x = ir_personId r ∧ relatedPersonId x = ir_relatedPersonId r.
Proof.
  unfold repeats. rewrite Exists_exists. split.
  - intros (x & Hx%elem_of_values & H). by exists x.
  - intros (x & Hx%elem_of_values & H). by exists x.
Qed.

Lemma stored_once_subset s s' :
  (∀ x, stored (relationships s') x → stored (relationships s) x) →
  stored_once s → stored_once s'.
Proof. intros Hsub Hs x y Hx Hy. apply Hs; by apply Hsub. Qed.

Lemma deleteRelationship_subset id s x :
  stored (relationships (deleteRelationship id s).2) x →
  stored (relationships s) x.
Proof.
  unfold deleteRelationship, map_delete_result.
  destruct (relationships s !! id) as [r|] eqn:Hid; simpl; [|done].
  intros [k [_ Hk]%lookup_delete_Some]. rewrite lookup_delete_all in Hk.
  case_decide; [done|]. by exists k.
Qed.

(** [deleteRelationship] keeps the invariant when nothing is stored twice. *)
Lemma mirrored_deleteRelationship_once id s :
  store_wf s → mirrored s → stored_once s →
  mirrored (deleteRelationship id s).2.
Proof.
  intros Hwf Hm Honce.
  destruct (relationships s !! id) as [r|] eqn:Hid;
    [|by rewrite deleteRelationship_missing].
  rewrite (deleteRelationship_stored s Hwf id r Hid). simpl.
  intros x [k [Hx [Hne Hnrec]]%map_lookup_filter_Some] Hkt. simpl in *.
  destruct (Hm x) as (x' & [k' Hx'] & Hxx'); [by exists k|done|].
  exists x'. split; [|done]. exists k'. apply map_lookup_filter_Some.
  split; [done|]. simpl. split.
  - intros ->. apply Hnrec. apply is_reciprocal_of_sym. congruence.
  - intros (Hp & Hq & Ht). destruct Hxx' as (Hp' & Hq' & Ht').
    assert (same_statement x r) as Hsame.
    { split; [|split; congruence]. apply getReciprocalType_inj. congruence. }
    destruct (Honce x r) as [->|Hself]; [by exists k|by exists id|done| |].
    + apply Hne. rewrite <- (stored_rel_key s Hwf k r Hx).
      by apply (stored_rel_key s Hwf).
    + apply Hnrec. destruct Hsame as (Ht1 & Hp1 & Hq1).
      destruct Hself as (Hps & _ & Hts).
      split; [congruence|]. split; [congruence|]. congruence.
Qed.

Lemma stored_once_createRelationship r s :
  store_wf s → mirrored s → stored_once s → ¬ repeats r s →
  stored_once (createRelationship r s).2.
Proof.
  intros Hwf Hm Honce Hnew. rewrite repeats_spec in Hnew.
  set (id := currentRelationshipId s).
  set (rel := spread_relationship r id).
  assert (∀ y, stored (relationships s) y → ¬ same_statement rel y) as Hrel.
  { intros y Hy (Ht & Hp & Hq). apply Hnew. exists y. by repeat split. }
  destruct (decide (known_type (ir_type r))) as [Hk|Hk].
  - rewrite createRelationship_known by done. simpl. fold id rel.
    set (rec := {| rel_id := id + 1;
                   rel_type := getReciprocalType (ir_type r);
                   personId := ir_relatedPersonId r;
                   relatedPersonId := ir_personId r |}).
    assert (∀ y, stored (relationships s) y → ¬ same_statement rec y) as Hrec.
    { intros y Hy (Ht & Hp & Hq).
      destruct (Hm y Hy) as (y' & Hy' & Hp' & Hq' & Ht').
      { rewrite <- Ht. by apply getReciprocalType_known. }
      apply Hnew. exists y'. split; [done|]. simpl in *.
      rewrite Ht', <- Ht, getReciprocalType_involutive. split; [done|].
      split; congruence. }
    assert (same_statement rel rec → is_reciprocal_of rel rel ∧ is_reciprocal_of rec rec)
      as Hself.
    { intros (Ht & Hp & Hq). simpl in *. unfold is_reciprocal_of. simpl.
      rewrite <- Ht. repeat split; congruence. }
    assert (∀ x, stored (<[id + 1 := rec]> (<[id := rel]> (relationships s))) x →
              x = rec ∨ x = rel ∨ stored (relationships s) x) as Hcases.
    { intros x [k Hx].
      apply lookup_insert_Some in Hx as [[_ <-]|[_ Hx]]; [by left|].
      apply lookup_insert_Some in Hx as [[_ <-]|[_ Hx]]; [by right; left|].
      right; right. by exists k. }
    assert (∀ x y, same_statement x y → same_statement y x) as Hsym
      by (intros x y (? & ? & ?); by repeat split).
    intros x y Hx%Hcases Hy%Hcases Hsame.
    destruct Hx as [->|[->|Hx]], Hy as [->|[->|Hy]];
      try (by left);
      try (by right; apply Hself);
      try (by right; apply Hself, Hsym);
      try (exfalso; by eapply Hrec);
      try (exfalso; by eapply Hrel);
      try (exfalso; eapply Hrec; [exact Hx|by apply Hsym]);
      try (exfalso; eapply Hrel; [exact Hx|by apply Hsym]).
    by apply Honce.
  - rewrite createRelationship_unknown by done. simpl. fold id rel.
    assert (∀ x y, same_statement x y → same_statement y x) as Hsym
      by (intros x y (? & ? & ?); by repeat split).
    assert (∀ x, stored (<[id := rel]> (relationships s)) x →
              x = rel ∨ stored (relationships s) x) as Hcases.
    { intros x [k Hx].
      apply lookup_insert_Some in Hx as [[_ <-]|[_ Hx]]; [by left|].
      right. by exists k. }
    intros x y Hx%Hcases Hy%Hcases Hsame.
    destruct Hx as [->|Hx], Hy as [->|Hy]; [by left| | |by apply Honce].
    + exfalso. by eapply Hrel.
    + exfalso. eapply Hrel; [exact Hx|by apply Hsym].
Qed.

Lemma updatePerson_relationships id p s :
  relationships (updatePerson id p s).2 = relationships s.
Proof. unfold updatePerson. by destruct (persons s !! id). Qed.

(** One permitted call keeps the three properties together. *)
Lemma kept_by_call s c :
  store_wf s → mirrored s → stored_once s →
  match c with CreateRelationship r => ¬ repeats r s | _ => True end →
  store_wf (call s c) ∧ mirrored (call s c) ∧ stored_once (call s c).
Proof.
  intros Hwf Hm Honce Hc. split; [by apply store_wf_call|].
  destruct c as [p|id p|id|r|id]; cbn [call].
  - split; [by apply (mirrored_same_relationships s)|].
    by apply (stored_once_subset s).
  - split.
    + apply (mirrored_same_relationships s); [apply updatePerson_relationships|done].
    + apply (stored_once_subset s); [|done].
      by rewrite updatePerson_relationships.
  - split; [by apply mirrored_deletePerson|].
    apply (stored_once_subset s); [|done]. rewrite deletePerson_spec by done.
    simpl. intros x [k [Hk _]%map_lookup_filter_Some]. by exists k.
  - split; [by apply mirrored_createRelationship|].
    by apply stored_once_createRelationship.
  - split; [by apply mirrored_deleteRelationship_once|].
    apply (stored_once_subset s); [|done]. apply deleteRelationship_subset.
Qed.

Lemma kept_by_run calls : ∀ s,
  store_wf s → mirrored s → stored_once s → no_repeats calls s →
  mirrored (run calls s) ∧ stored_once (run calls s).
Proof.
  induction calls as [|c calls IH]; intros s Hwf Hm Honce Hcalls.
  - done.
  - destruct Hcalls as [Hc Hcalls].
    destruct (kept_by_call s c Hwf Hm Honce Hc) as (Hwf' & Hm' & Honce').
    by apply (IH (call s c)).
Qed.



(** ** From the store to the tree *)

Lemma listed_person_ids s (Hwf : store_wf s) x :
  x ∈ person_id <$> data_persons (getFamilyTreeData s) ↔ is_Some (getPerson x s).
Proof.
  unfold getFamilyTreeData, getPerson. simpl. rewrite list_elem_of_fmap.
  destruct Hwf as (Hp & _). split.
  - intros (p & -> & [k Hk]%elem_of_values).
    destruct (Hp k p Hk) as [-> _]. by eexists.
  - intros [p Hx]. exists p. destruct (Hp x p Hx) as [-> _].
    split; [done|]. apply elem_of_values. by eexists.
Qed.

(** The references in an array of the tree, read off the store. *)
Lemma related_of_store s (Hwf : store_wf s) t a x :
  x ∈ related t (getFamilyTreeData s) a ↔
  (∃ r, stored (relationships s) r ∧ rel_type r = t ∧ personId r = a ∧
        relatedPersonId r = x) ∧
  is_Some (getPerson x s).
Proof.
  unfold related. rewrite list_elem_of_fmap. split.
  - intros (r & -> & [(Ht & Ha & Hin) Hr]%list_elem_of_filter).
    split; [|by apply listed_person_ids].
    exists r. split; [|done]. by apply elem_of_values.
  - intros [(r & Hr & Ht & Ha & Hx) Hin]. exists r. split; [done|].
    apply list_elem_of_filter. split; [|by apply elem_of_values].
    split; [done|]. split; [done|]. rewrite Hx. by apply listed_person_ids.
Qed.

(** X7.  The tree built from the store's snapshot has one object per
    stored person, filed under the person's id and carrying the stored
    record; and person [x] is in the [children] (parents, spouses,
    siblings) array of person [a] exactly when [x] is a stored person and
    the store holds a relationship of type parent (child, spouse, sibling)
    from [a] to [x]. *)
Theorem tree_of_store (s : MemStorage) (Hwf : store_wf s) :
  let forest := buildFamilyTree (getFamilyTreeData s) in
  (∀ a p, getPerson a s = Some p →
          ∃ node, heap forest !! a = Some node ∧ ftp_person node = p) ∧
  (∀ a node, heap forest !! a = Some node →
     getPerson a s = Some (ftp_person node) ∧
     ∀ t arr, (t, arr) ∈ [("parent", children node); ("child", parents node);
                          ("spouse", spouses node); ("sibling", siblings node)] →
       ∃ l, arr = Some l ∧
         ∀ x, x ∈ l ↔
           is_Some (getPerson x s) ∧
           ∃ r, stored (relationships s) r ∧ rel_type r = t ∧
                personId r = a ∧ relatedPersonId r = x).
Proof.
  intros forest.
  assert (∀ a node, heap forest !! a = Some node →
            getPerson a s = Some (ftp_person node)) as Hperson.
  { intros a node Hnode.
    destruct (buildFamilyTree_node _ _ _ Hnode) as (Hid & Hin & _).
    apply elem_of_values in Hin as [k Hk]. unfold getPerson.
    destruct Hwf as (Hp & _). destruct (Hp k _ Hk) as [Hk' _].
    unfold ftp_id in Hid. congruence. }
  split.
  - intros a p Hp.
    assert (is_Some (heap forest !! a)) as [node Hnode].
    { apply buildFamilyTree_is_Some, listed_person_ids; [done|by eexists]. }
    exists node. split; [done|]. apply Hperson in Hnode. congruence.
  - intros a node Hnode. split; [by apply Hperson|].
    destruct (buildFamilyTree_node _ _ _ Hnode) as (_ & _ & Hc & Hpa & Hsp & Hsi).
    intros t arr Hin.
    assert (arr = Some (related t (getFamilyTreeData s) a)) as ->.
    { repeat (apply elem_of_cons in Hin as [[= -> ->]|Hin]; [done|]).
      by apply elem_of_nil in Hin. }
    eexists. split; [done|]. intros x.
    rewrite (related_of_store s Hwf). tauto.
Qed.

Lemma tree_of_store_witness :
  let s := run [CreatePerson (ip "Ada"); CreatePerson (ip "Byron");
                CreateRelationship (ir "parent" 2 1)] constructor in
  let forest := buildFamilyTree (getFamilyTreeData s) in
  (∀ a p, getPerson a s = Some p →
          ∃ node, heap forest !! a = Some node ∧ ftp_person node = p) ∧
  (∀ a node, heap forest !! a = Some node →
     getPerson a s = Some (ftp_person node) ∧
     ∀ t arr, (t, arr) ∈ [("parent", children node); ("child", parents node);
                          ("spouse", spouses node); ("sibling", siblings node)] →
       ∃ l, arr = Some l ∧
         ∀ x, x ∈ l ↔
           is_Some (getPerson x s) ∧
           ∃ r, stored (relationships s) r ∧ rel_type r = t ∧
                personId r = a ∧ relatedPersonId r = x).
Proof.
  intros s. apply (tree_of_store s). apply store_wf_run, store_wf_constructor.
Defined.

(** X8.  When the store is mirrored, the tree built from its snapshot is
    symmetric: for stored persons [a] and [b], [b] is a child of [a]
    exactly when [a] is a parent of [b], and the [spouses] and the
    [siblings] arrays hold [b] for [a] exactly when they hold [a] for
    [b]. *)
Theorem tree_of_mirrored_store_is_symmetric (s : MemStorage)
    (Hwf : store_wf s) (Hmirrored : mirrored s) :
  let forest := buildFamilyTree (getFamilyTreeData s) in
  ∀ a b A B, heap forest !! a = Some A → heap forest !! b = Some B →
    (b ∈ default [] (children A) ↔ a ∈ default [] (parents B)) ∧
    (b ∈ default [] (spouses A) ↔ a ∈ default [] (spouses B)) ∧
    (b ∈ default [] (siblings A) ↔ a ∈ default [] (siblings B)).
Proof.
  intros forest a b A B HA HB.
  destruct (buildFamilyTree_node _ _ _ HA) as (_ & _ & HcA & HpA & HsA & HiA).
  destruct (buildFamilyTree_node _ _ _ HB) as (_ & _ & HcB & HpB & HsB & HiB).
  rewrite HcA, HpB, HsA, HsB, HiA, HiB. simpl.
  assert (is_Some (getPerson a s)) as Ha
    by (apply listed_person_ids, buildFamilyTree_is_Some; [done|by eexists]).
  assert (is_Some (getPerson b s)) as Hb
    by (apply listed_person_ids, buildFamilyTree_is_Some; [done|by eexists]).
  assert (∀ t a b, known_type t → is_Some (getPerson a s) →
            b ∈ related t (getFamilyTreeData s) a →
            a ∈ related (getReciprocalType t) (getFamilyTreeData s) b) as Hflip.
  { intros t a' b' Ht Ha' [(r & Hr & <- & <- & <-) _]%related_of_store; [|done].
    apply related_of_store; [done|]. split; [|done].
    destruct (Hmirrored r Hr Ht) as (r' & Hr' & Hp & Hq & Hty).
    exists r'. by repeat split. }
  split; [|split]; split; intros H.
  - by apply (Hflip "parent"); [left|..].
  - by apply (Hflip "child"); [right; left|..].
  - by apply (Hflip "spouse"); [right; right; left|..].
  - by apply (Hflip "spouse"); [right; right; left|..].
  - by apply (Hflip "sibling"); [right; right; right|..].
  - by apply (Hflip "sibling"); [right; right; right|..].
Qed.

Lemma tree_of_mirrored_store_is_symmetric_witness :
  let s := run [CreatePerson (ip "Ada"); CreatePerson (ip "Byron");
                CreateRelationship (ir "parent" 2 1);
                CreateRelationship (ir "spouse" 1 2)] constructor in
  let forest := buildFamilyTree (getFamilyTreeData s) in
  ∃ A B, heap forest !! 1 = Some A ∧ heap forest !! 2 = Some B ∧
    (2 ∈ default [] (children A) ↔ 1 ∈ default [] (parents B)) ∧
    (2 ∈ default [] (spouses A) ↔ 1 ∈ default [] (spouses B)) ∧
    (2 ∈ default [] (siblings A) ↔ 1 ∈ default [] (siblings B)).
Proof.
  intros s forest.
  destruct (heap forest !! 1) as [A|] eqn:HA; [|by vm_compute in HA].
  destruct (heap forest !! 2) as [B|] eqn:HB; [|by vm_compute in HB].
  exists A, B. split; [done|]. split; [done|].
  apply (tree_of_mirrored_store_is_symmetric s); [| |exact HA|exact HB].
  - apply store_wf_run, store_wf_constructor.
  - apply kept_by_run.
    + apply store_wf_constructor.
    + intros r [k Hk]. simpl in Hk. by rewrite lookup_empty in Hk.
    + intros x y [k Hk]. simpl in Hk. by rewrite lookup_empty in Hk.
    + repeat split; apply (bool_decide_unpack _); vm_compute; exact I.
Defined.

(** X9.  In the forest that [buildFamilyTree] returns, whatever the input,
    every root has an empty [parents] array, and no array of any object
    refers to a person without an object: every id held in a [children],
    [parents], [spouses] or [siblings] array is the key of an object of
    the forest. *)
Theorem buildFamilyTree_roots_top_and_no_dangling (data : FamilyTreeData) :
  let forest := buildFamilyTree data in
  Forall (λ root, parents root = Some []) (roots forest) ∧
  ∀ a node x, heap forest !! a = Some node →
    x ∈ default [] (children node) ++ default [] (parents node) ++
        default [] (spouses node) ++ default [] (siblings node) →
    is_Some (heap forest !! x).
Proof.
  intros forest. subst forest. split.
  - apply Forall_forall. intros root Hroot.
    pose proof (buildFamilyTree_roots_in_heap data root Hroot) as Hheap.
    destruct (buildFamilyTree_node _ _ _ Hheap) as (_ & _ & _ & Hpa & _).
    rewrite Hpa. f_equal. unfold related.
    match goal with |- _ <$> ?l = [] => assert (l = []) as ->; [|done] end.
    apply elem_of_nil_inv.
    intros r [(Ht & Hp & _) Hr]%list_elem_of_filter.
    rewrite buildFamilyTree_roots_eq, sort_by_Permutation in Hroot.
    apply list_elem_of_omap in Hroot as (p & Hcand & Hlook).
    apply list_elem_of_filter in Hcand as [Hno _]. apply Hno.
    destruct (buildFamilyTree_node _ _ _ Hlook) as (Hid & _).
    apply Exists_exists. exists r. split; [done|]. split; [done|]. congruence.
  - intros a node x Hnode Hx.
    destruct (buildFamilyTree_node _ _ _ Hnode) as (_ & _ & Hc & Hpa & Hsp & Hsi).
    rewrite Hc, Hpa, Hsp, Hsi in Hx. simpl in Hx.
    apply buildFamilyTree_is_Some. unfold related in Hx.
    repeat (apply elem_of_app in Hx as [Hx|Hx]);
      apply list_elem_of_fmap in Hx as (r & -> & Hr);
      apply list_elem_of_filter in Hr as [(_ & _ & ?) _]; done.
Qed.

(** ** The layout engine: what a finished layout looks like *)

(** *** The steps on the layout state, again *)

Lemma extends_refl st : extends st st.
Proof. intros i n Hn. by exists n. Qed.

Lemma extends_trans st1 st2 st3 : extends st1 st2 → extends st2 st3 → extends st1 st3.
Proof.
  intros H12 H23 i n Hn. destruct (H12 i n Hn) as (n2 & Hn2 & Hf2).
  destruct (H23 i n2 Hn2) as (n3 & Hn3 & Hf3). exists n3. split; [done|congruence].
Qed.

Lemma extends_push_node n st : extends st (push_node n st).
Proof.
  intros i m Hm. exists m. split; [|done]. unfold push_node. simpl.
  rewrite lookup_app_l; [done|]. by apply lookup_lt_Some in Hm.
Qed.

Lemma extends_same_nodes st st' : st_nodes st' = st_nodes st → extends st st'.
Proof. intros Heq i n Hn. exists n. by rewrite Heq. Qed.

Lemma extends_update_node f r st :
  (∀ n, frame (f n) = frame n) → extends st (update_node f r st).
Proof.
  intros Hf i n Hn. unfold update_node. simpl.
  destruct (decide (r = i)) as [->|Hne].
  - exists (f n). by rewrite list_lookup_alter_eq, Hn.
  - exists n. by rewrite list_lookup_alter_ne.
Qed.

Lemma frame_set_spouse r n : frame (set_spouse r n) = frame n.
Proof. done. Qed.

Lemma frame_push_child_node r n : frame (push_child_node r n) = frame n.
Proof. unfold frame. simpl. by destruct (node_children n). Qed.

Lemma extends_length st st' :
  extends st st' → (length (st_nodes st) ≤ length (st_nodes st'))%nat.
Proof.
  intros Hext.
  destruct (decide (length (st_nodes st) ≤ length (st_nodes st'))%nat) as [|Hgt];
    [done|exfalso].
  destruct (lookup_lt_is_Some_2 (st_nodes st) (length (st_nodes st'))) as [n Hn];
    [lia|].
  destruct (Hext _ n Hn) as (n' & Hn' & _). apply lookup_lt_Some in Hn'. lia.
Qed.

Lemma seen_extends st st' : extends st st' → seen st ⊆ seen st'.
Proof.
  intros Hext a (n & Hn & Ha)%elem_of_seen. apply elem_of_seen.
  apply list_elem_of_lookup in Hn as [i Hi].
  destruct (Hext i n Hi) as (n' & Hn' & Hf). exists n'. split.
  - by apply list_elem_of_lookup_2 in Hn'.
  - unfold frame in Hf. congruence.
Qed.

Lemma seen_same_nodes st st' : st_nodes st' = st_nodes st → seen st' = seen st.
Proof. unfold seen. by intros ->. Qed.

Lemma seen_update_node f r st :
  (∀ n, frame (f n) = frame n) → seen (update_node f r st) = seen st.
Proof.
  intros Hf. apply set_eq. intros a. split.
  - intros (n & Hn & Ha)%elem_of_seen. apply elem_of_seen.
    unfold update_node in Hn. simpl in Hn.
    apply list_elem_of_lookup in Hn as [i Hi].
    destruct (decide (r = i)) as [->|Hne].
    + rewrite list_lookup_alter_eq in Hi.
      destruct (st_nodes st !! i) as [m|] eqn:Hm; [|done]. injection Hi as <-.
      exists m. split; [by apply list_elem_of_lookup_2 in Hm|].
      specialize (Hf m). unfold frame in Hf. congruence.
    + rewrite list_lookup_alter_ne in Hi by done. exists n.
      split; [by apply list_elem_of_lookup_2 in Hi|done].
  - apply seen_extends. by apply extends_update_node.
Qed.

Lemma node_shaped_frame n n' : frame n' = frame n → node_shaped n → node_shaped n'.
Proof.
  unfold frame, node_shaped. intros [= _ Hy Hw Hh _ Hl _].
  by rewrite Hy, Hw, Hh, Hl.
Qed.

Lemma attained_extends st st' :
  extends st st' → maxWidth st' = maxWidth st → maxHeight st' = maxHeight st →
  attained st → attained st'.
Proof.
  intros Hext Hw Hh [Haw Hah]. unfold attained. rewrite Hw, Hh. split.
  - destruct Haw as [?|(i & n & Hn & Hedge)]; [by left|right].
    destruct (Hext i n Hn) as (n' & Hn' & Hf). exists i, n'. split; [done|].
    unfold frame in Hf. injection Hf as Hx _ Hwd _ _ _ _. by rewrite Hx, Hwd.
  - destruct Hah as [?|(i & n & Hn & Hedge)]; [by left|right].
    destruct (Hext i n Hn) as (n' & Hn' & Hf). exists i, n'. split; [done|].
    unfold frame in Hf. injection Hf as _ Hy _ Hht _ _ _. by rewrite Hy, Hht.
Qed.

Lemma tidy_push_node n st : tidy st → node_shaped n → tidy (push_node n st).
Proof.
  intros (Hn & Hc & Ha) Hshape. split; [|split; [done|]].
  - unfold push_node. simpl. apply Forall_app. split; [done|]. by constructor.
  - by apply (attained_extends st); [apply extends_push_node|..].
Qed.

Lemma tidy_push_connector c st : tidy st → aligned c → tidy (push_connector c st).
Proof.
  intros (Hn & Hc & Ha) Hal. split; [done|]. split; [|done].
  unfold push_connector. simpl. apply Forall_app. split; [done|]. by constructor.
Qed.

Lemma tidy_update_node f r st :
  (∀ n, frame (f n) = frame n) → tidy st → tidy (update_node f r st).
Proof.
  intros Hf (Hn & Hc & Ha). split; [|split; [done|]].
  - unfold update_node. simpl. apply Forall_alter; [done|].
    intros n _. by apply node_shaped_frame.
  - by apply (attained_extends st); [apply extends_update_node|..].
Qed.

Lemma tidy_update_max w h st :
  tidy st →
  (∃ i n, st_nodes st !! i = Some n ∧ node_x n + node_width n = w) →
  (∃ i n, st_nodes st !! i = Some n ∧ node_y n + node_height n = h) →
  tidy (update_max w h st).
Proof.
  intros (Hn & Hc & [Haw Hah]) (i & n & Hi & Hw) (j & m & Hj & Hh).
  split; [done|]. split; [done|]. unfold update_max, attained. simpl. split.
  - destruct (Z.max_spec (maxWidth st) w) as [[_ ->]|[_ ->]]; [right; by exists i, n|].
    done.
  - destruct (Z.max_spec (maxHeight st) h) as [[_ ->]|[_ ->]]; [right; by exists j, m|].
    done.
Qed.

Lemma covered_seen heap busy st st' :
  st_nodes st' = st_nodes st → covered heap busy st → covered heap busy st'.
Proof.
  intros Heq Hcov i n Hn. rewrite Heq in Hn. rewrite (seen_same_nodes st st' Heq).
  by apply Hcov.
Qed.

(** A new node may be pushed when it is the node of a spouse (no
    [children] array) or when its call is still running. *)
Lemma covered_push_node heap busy n st :
  covered heap busy st →
  ¬ is_Some (node_children n) ∨ busy (length (st_nodes st)) →
  covered heap busy (push_node n st).
Proof.
  intros Hcov Hnew i m Hm Hbusy Hchildren c child Hc Hchild.
  unfold push_node in Hm. simpl in Hm.
  apply lookup_snoc_Some in Hm as [[Hlt Hm]|[-> ->]].
  - apply (seen_extends st); [apply extends_push_node|]. by eapply Hcov.
  - tauto.
Qed.

Lemma covered_update_node heap busy f r st :
  (∀ n, frame (f n) = frame n) →
  covered heap busy st → covered heap busy (update_node f r st).
Proof.
  intros Hf Hcov i n Hn Hbusy Hchildren c child Hc Hchild.
  rewrite seen_update_node by done.
  unfold update_node in Hn. simpl in Hn.
  destruct (decide (r = i)) as [->|Hne].
  - rewrite list_lookup_alter_eq in Hn.
    destruct (st_nodes st !! i) as [m|] eqn:Hm; [|done]. injection Hn as <-.
    specialize (Hf m). unfold frame in Hf. injection Hf as _ _ _ _ Hp _ Hb.
    apply (Hcov i m Hm Hbusy) with (c := c); [|by rewrite <- Hp|done].
    assert (bool_decide (is_Some (node_children (f m))) = true) as Ht
      by (by apply bool_decide_eq_true_2).
    rewrite Hb in Ht. by apply bool_decide_eq_true_1 in Ht.
  - rewrite list_lookup_alter_ne in Hn by done. by eapply Hcov.
Qed.

Lemma covered_mono heap busy st st' :
  covered heap busy st → st_nodes st' = st_nodes st → covered heap busy st'.
Proof. intros. by eapply covered_seen. Qed.

Lemma covered_busy_mono heap (busy busy' : nat → Prop) st :
  (∀ i, busy i → busy' i) → covered heap busy st → covered heap busy' st.
Proof. intros Hsub Hcov i n Hn Hbusy. apply (Hcov i n Hn). auto. Qed.

Lemma lookup_frame_seen st i n p :
  st_nodes st !! i = Some n → node_person n = p → ftp_id p ∈ seen st.
Proof.
  intros Hn <-. apply elem_of_seen. exists n. split; [|done].
  by apply list_elem_of_lookup_2 in Hn.
Qed.

(** *** The spouse, when it has been placed *)

Lemma place_spouse_finished heap person nodeRef level xOffset st sp tw st' busy n0 :
  place_spouse heap person nodeRef level xOffset st = Some (sp, tw, st') →
  0 ≤ level → tidy st → covered heap busy st →
  st_nodes st !! nodeRef = Some n0 →
  node_x n0 = xOffset → node_width n0 = NODE_WIDTH →
  tidy st' ∧ extends st st' ∧ covered heap busy st' ∧
  ∃ i n, st_nodes st' !! i = Some n ∧ node_x n + node_width n = xOffset + tw.
Proof.
  intros Hrun Hlevel Htidy Hcov Hn0 Hx0 Hw0. unfold place_spouse in Hrun.
  assert (spouses person = None ∨ spouses person = Some [] ∨
          ∃ first rest, spouses person = Some (first :: rest)) as Hcases.
  { destruct (spouses person) as [[|first rest]|]; eauto. }
  destruct Hcases as [Hsp|[Hsp|(first & rest & Hsp)]]; rewrite Hsp in Hrun.
  - injection Hrun as <- <- <-. split; [done|]. split; [apply extends_refl|].
    split; [done|]. exists nodeRef, n0. split; [done|]. lia.
  - injection Hrun as <- <- <-. split; [done|]. split; [apply extends_refl|].
    split; [done|]. exists nodeRef, n0. split; [done|]. lia.
  - destruct (heap !! first) as [spouse|]; [|done]. simpl in Hrun.
    injection Hrun as <- <- <-.
    set (spouseNode := {| node_x := xOffset + NODE_WIDTH + SPOUSE_SPACING;
                          node_y := level * LEVEL_HEIGHT;
                          node_person := spouse; node_width := NODE_WIDTH;
                          node_height := NODE_HEIGHT; node_children := None;
                          node_spouse := None; node_level := level |}).
    set (st1 := push_node spouseNode st).
    set (st2 := update_node (set_spouse (length (st_nodes st))) nodeRef st1).
    assert (extends st st2) as Hext.
    { eapply extends_trans; [apply extends_push_node|].
      by apply extends_update_node. }
    split; [|split; [|split]].
    + apply tidy_push_connector; [|done].
      apply tidy_update_node; [done|]. by apply tidy_push_node.
    + eapply extends_trans; [exact Hext|]. by apply extends_same_nodes.
    + apply (covered_seen heap busy st2); [done|].
      apply covered_update_node; [done|]. apply covered_push_node; [done|].
      left. by intros [? ?].
    + destruct (extends_update_node (set_spouse (length (st_nodes st))) nodeRef st1
                  (frame_set_spouse _) (length (st_nodes st)) spouseNode
                  (lookup_pushed spouseNode st)) as (n' & Hn' & Hf).
      exists (length (st_nodes st)), n'. split; [done|].
      unfold frame in Hf. injection Hf as -> _ -> _ _ _ _. simpl. lia.
Qed.

(** *** The children, when they have been placed *)

Section place_children_finished.
Variable heap : gmap Z FamilyTreePerson.
Variable recur :
  FamilyTreePerson → Z → Z → LayoutState → option (nat * LayoutState).
Hypothesis recur_finishes : finishes heap recur.

Lemma place_children_finished node level childXOffset parentY validChildren :
  ∀ index st st' busy,
    place_children recur node level childXOffset parentY validChildren index st
      = Some st' →
    0 ≤ level → tidy st → covered heap busy st →
    (∀ i, busy i → (i < length (st_nodes st))%nat) →
    tidy st' ∧ extends st st' ∧ covered heap busy st' ∧
    Forall (λ child, ftp_id child ∈ seen st') validChildren.
Proof.
  induction validChildren as [|child rest IH];
    intros index st st' busy Hrun Hlevel Htidy Hcov Hbusy.
  - injection Hrun as <-. split; [done|]. split; [apply extends_refl|]. done.
  - cbn [place_children] in Hrun.
    set (childX := childXOffset + index * (NODE_WIDTH + SIBLING_SPACING)) in *.
    destruct (recur child (level + 1) childX st) as [[childRef st1]|] eqn:Hrec;
      [|done].
    cbn [mbind option_bind] in Hrun.
    destruct (recur_finishes _ _ _ _ _ _ busy Hrec) as
      (Htidy1 & Hext1 & Hcov1 & n & Hn & Hframe); [lia|done|done|done|].
    rewrite Hn in Hrun. cbn [mbind option_bind] in Hrun.
    set (st2 := update_node (push_child_node childRef) node st1) in *.
    set (conn := {| conn_type := vertical; x1 := childX + NODE_WIDTH / 2;
                    y1 := parentY + LEVEL_HEIGHT / 2;
                    x2 := childX + NODE_WIDTH / 2; y2 := node_y n |}) in *.
    set (st3 := update_max (childX + NODE_WIDTH) (node_y n + NODE_HEIGHT)
                           (push_connector conn st2)) in *.
    assert (extends st1 st2) as Hext2
      by (apply extends_update_node; intros ?; apply frame_push_child_node).
    assert (extends st2 st3) as Hext3 by by apply extends_same_nodes.
    destruct (Hext2 childRef n Hn) as (n2 & Hn2 & Hframe2).
    assert (frame n2 = (childX, (level + 1) * LEVEL_HEIGHT, NODE_WIDTH,
                        NODE_HEIGHT, child, level + 1, true)) as Hf2 by congruence.
    unfold frame in Hf2, Hframe. injection Hf2 as Hx2 Hy2 Hw2 Hh2 _ _ _.
    injection Hframe as _ Hy _ _ Hperson _ _.
    destruct (IH (index + 1) st3 st' busy Hrun) as (Htidy' & Hext' & Hcov' & Hseen');
      [done| | |..].
    + apply tidy_update_max.
      * apply tidy_push_connector; [|done].
        apply tidy_update_node; [intros ?; apply frame_push_child_node|done].
      * exists childRef, n2. split; [done|]. by rewrite Hx2, Hw2.
      * exists childRef, n2. split; [done|]. by rewrite Hy2, Hh2, Hy.
    + apply (covered_seen heap busy st2); [done|].
      apply covered_update_node; [intros ?; apply frame_push_child_node|done].
    + intros i Hi. apply Hbusy in Hi.
      pose proof (extends_length _ _ Hext1). pose proof (extends_length _ _ Hext2).
      pose proof (extends_length _ _ Hext3). lia.
    + assert (extends st1 st') as Hext1'.
      { apply (extends_trans st1 st2 st'); [done|].
        by apply (extends_trans st2 st3 st'). }
      split; [done|]. split; [by apply (extends_trans st st1 st')|].
      split; [done|].
      constructor; [|done].
      apply (seen_extends st1 st' Hext1'). by eapply lookup_frame_seen.
Qed.
End place_children_finished.

(** *** processNode and the roots, when they have returned *)

Lemma processNode_finishes heap : ∀ fuel, finishes heap (processNode fuel heap).
Proof.
  induction fuel as [|fuel IH];
    intros person level xOffset st r st' busy Hrun Hlevel Htidy Hcov Hbusy;
    [done|].
  cbn [processNode] in Hrun.
  set (node := {| node_x := xOffset; node_y := level * LEVEL_HEIGHT;
                  node_person := person; node_width := NODE_WIDTH;
                  node_height := NODE_HEIGHT; node_children := Some [];
                  node_spouse := None; node_level := level |}) in *.
  set (nodeRef := length (st_nodes st)) in *.
  set (st1 := push_node node st) in *.
  set (busy' := λ i, busy i ∨ i = nodeRef).
  assert (tidy st1) as Htidy1 by (by apply tidy_push_node).
  assert (covered heap busy' st1) as Hcov1.
  { apply covered_push_node; [|by right; right].
    apply (covered_busy_mono heap busy); [by left|done]. }
  pose proof (lookup_pushed node st) as Hnode. fold st1 nodeRef in Hnode.
  destruct (place_spouse heap person nodeRef level xOffset st1)
    as [[[sp tw] st2]|] eqn:Hspouse; [|done].
  cbn [mbind option_bind] in Hrun.
  destruct (place_spouse_finished _ _ _ _ _ _ _ _ _ busy' node Hspouse)
    as (Htidy2 & Hext2 & Hcov2 & iw & nw & Hnw & Hedge); [done..|].
  destruct (mapM (λ r, heap !! r) (default [] (children person)))
    as [childObjects|] eqn:Hm; [|done].
  cbn [mbind option_bind] in Hrun.
  set (validChildren := filter (λ child, ¬ already_placed st2 child) childObjects)
    in *.
  match type of Hrun with
  | ?body ≫= _ = _ =>
      assert (∃ st3, body = Some st3 ∧ tidy st3 ∧ extends st2 st3 ∧
                     covered heap busy' st3 ∧
                     Forall (λ child, ftp_id child ∈ seen st3) validChildren)
        as (st3 & Hst3 & Htidy3 & Hext3 & Hcov3 & Hseen3)
  end.
  { destruct (decide (0 < length validChildren)%nat) as [Hlen|Hlen].
    - match type of Hrun with
      | place_children _ _ _ ?cx ?py _ _ ?s ≫= _ = _ =>
          set (st2' := s) in *; set (childXOffset := cx) in *;
          set (parentY := py) in *
      end.
      destruct (place_children (processNode fuel heap) nodeRef level childXOffset
                  parentY validChildren 0 st2') as [st3|] eqn:Hst3;
        [|done].
      assert (tidy st2' ∧ extends st2 st2') as [Htidy2' Hext2'].
      { unfold st2'. case_decide.
        - split.
          + by do 2 (apply tidy_push_connector; [|done]).
          + by apply extends_same_nodes.
        - split; [by apply tidy_push_connector|by apply extends_same_nodes]. }
      destruct (place_children_finished heap (processNode fuel heap) IH _ _ _ _ _
                  _ _ _ busy' Hst3) as (Htidy3 & Hext3 & Hcov3 & Hseen3);
        [done|done| | |].
      + apply (covered_seen heap busy' st2); [|done]. unfold st2'. by case_decide.
      + intros i [Hi| ->].
        * apply Hbusy in Hi. pose proof (extends_length _ _ Hext2).
          pose proof (extends_length _ _ Hext2').
          pose proof (extends_length _ _ (extends_push_node node st)) as Hlen1.
          fold st1 in Hlen1. lia.
        * apply lookup_lt_Some in Hnode. pose proof (extends_length _ _ Hext2).
          pose proof (extends_length _ _ Hext2'). lia.
      + exists st3. split; [done|]. split; [done|].
        split; [by apply (extends_trans st2 st2' st3)|done].
    - exists st2. split; [done|]. split; [done|]. split; [apply extends_refl|].
      split; [done|]. destruct validChildren; [done|simpl in Hlen; lia]. }
  rewrite Hst3 in Hrun. cbn [mbind option_bind] in Hrun.
  injection Hrun as <- <-.
  assert (extends st1 st3) as Hext13 by by apply (extends_trans st1 st2 st3).
  destruct (Hext13 nodeRef node Hnode) as (n3 & Hn3 & Hframe3).
  destruct (Hext3 iw nw Hnw) as (nw3 & Hnw3 & Hframew).
  set (st4 := update_max (xOffset + tw) (level * LEVEL_HEIGHT + NODE_HEIGHT) st3).
  assert (extends st3 st4) as Hext34 by by apply extends_same_nodes.
  split; [|split; [|split]].
  - apply tidy_update_max; [done| |].
    + exists iw, nw3. split; [done|]. unfold frame in Hframew.
      injection Hframew as -> _ -> _ _ _ _. done.
    + exists nodeRef, n3. split; [done|]. unfold frame in Hframe3.
      injection Hframe3 as _ -> _ -> _ _ _. done.
  - apply (extends_trans st st1 st4); [apply extends_push_node|].
    by apply (extends_trans st1 st3 st4).
  - intros i n Hn Hfree Hchildren c child Hc Hchild.
    change (st_nodes st4) with (st_nodes st3) in Hn.
    rewrite (seen_same_nodes st3 st4 eq_refl).
    destruct (decide (i = nodeRef)) as [->|Hne].
    + assert (n = n3) as -> by congruence.
      unfold frame in Hframe3. injection Hframe3 as _ _ _ _ Hperson _ _.
      rewrite Hperson in Hc. simpl in Hc.
      apply mapM_Some_1 in Hm.
      apply list_elem_of_lookup in Hc as [j Hj].
      destruct (Forall2_lookup_l _ _ _ _ _ Hm Hj) as (child' & Hj' & Hlook).
      assert (child' = child) as -> by congruence.
      destruct (decide (already_placed st2 child)) as [Hplaced|Hnew].
      * apply (seen_extends st2 st3 Hext3). by apply already_placed_seen.
      * rewrite Forall_forall in Hseen3. apply Hseen3.
        apply list_elem_of_filter. split; [done|].
        by apply list_elem_of_lookup_2 in Hj'.
    + apply (Hcov3 i n Hn) with (c := c); [|done|done|done].
      intros [?|?]; done.
  - exists n3. split; [done|]. by rewrite Hframe3.
Qed.

Lemma place_roots_finished heap fuel rootPersons : ∀ xPos st st',
  place_roots fuel heap rootPersons xPos st = Some st' →
  tidy st → covered heap (λ _, False) st →
  tidy st' ∧ extends st st' ∧ covered heap (λ _, False) st' ∧
  Forall (λ root, ∃ i n, st_nodes st' !! i = Some n ∧ node_person n = root ∧
                         node_y n = 0 ∧ is_Some (node_children n)) rootPersons.
Proof.
  induction rootPersons as [|root rest IH]; intros xPos st st' Hrun Htidy Hcov.
  - injection Hrun as <-. split; [done|]. split; [apply extends_refl|done].
  - cbn [place_roots] in Hrun.
    destruct (processNode fuel heap root 0 xPos st) as [[r st1]|] eqn:Hroot;
      [|done].
    cbn [mbind option_bind] in Hrun.
    destruct (processNode_finishes heap fuel _ _ _ _ _ _ (λ _, False) Hroot)
      as (Htidy1 & Hext1 & Hcov1 & n & Hn & Hframe); [done..|].
    destruct (IH _ _ _ Hrun Htidy1 Hcov1) as (Htidy' & Hext' & Hcov' & Hroots').
    split; [done|]. split; [by apply (extends_trans st st1 st')|].
    split; [done|]. constructor; [|done].
    destruct (Hext' r n Hn) as (n' & Hn' & Hframe').
    exists r, n'. split; [done|]. rewrite Hframe in Hframe'.
    unfold frame in Hframe'. injection Hframe' as _ Hy _ _ Hp _ Hb.
    split; [done|]. split; [by rewrite Hy|].
    by apply bool_decide_eq_true_1 in Hb.
Qed.

(** *** The finished layout *)

Lemma layout_finished heap rootPersons :
  heap_closed heap → Forall (resolves heap) rootPersons →
  ∃ st,
    layoutFamilyTree heap rootPersons =
      Some {| nodes := st_nodes st; connectors := st_connectors st;
              dimensions := {| dim_width := maxWidth st;
                               dim_height := maxHeight st |} |} ∧
    tidy st ∧ pending 0 0 st ∧ covered heap (λ _, False) st ∧
    Forall (λ root, ∃ i n, st_nodes st !! i = Some n ∧ node_person n = root ∧
                           node_y n = 0 ∧ is_Some (node_children n))
           rootPersons.
Proof.
  intros Hclosed Hroots. unfold layoutFamilyTree, layout_with.
  set (st0 := {| st_nodes := []; st_connectors := [];
                 maxWidth := 0; maxHeight := 0 |}).
  destruct (place_roots_spec heap rootPersons Hclosed 0 st0)
    as (st & Hst & _ & Hp); [done|lia|done|by constructor|].
  destruct (place_roots_finished heap _ _ _ _ _ Hst)
    as (Htidy & _ & Hcov & Hplaced).
  { split; [by constructor|]. split; [by constructor|]. split; by left. }
  { intros i n Hn. done. }
  exists st. rewrite Hst. done.
Qed.

(** X10.  In every layout all nodes are cards of the same size, 256 by
    120, and a node of level [l] sits on the row [y = 160 l], with
    [l ≥ 0]. *)
Theorem layoutFamilyTree_nodes_are_cards_on_rows
    (heap : gmap Z FamilyTreePerson) (rootPersons : list FamilyTreePerson)
    (Hclosed : heap_closed heap)
    (Hroots : Forall (resolves heap) rootPersons) :
  ∃ layout,
    layoutFamilyTree heap rootPersons = Some layout ∧
    Forall (λ n, node_width n = 256 ∧ node_height n = 120 ∧
                 0 ≤ node_level n ∧ node_y n = node_level n * 160)
           (nodes layout).
Proof.
  destruct (layout_finished heap rootPersons Hclosed Hroots)
    as (st & Hlayout & (Hshape & _) & _).
  eexists. split; [exact Hlayout|]. done.
Qed.

Lemma layoutFamilyTree_nodes_are_cards_on_rows_witness :
  ∃ layout,
    layoutFamilyTree (heap (buildFamilyTree demo)) (roots (buildFamilyTree demo))
      = Some layout ∧
    Forall (λ n, node_width n = 256 ∧ node_height n = 120 ∧
                 0 ≤ node_level n ∧ node_y n = node_level n * 160)
           (nodes layout).
Proof.
  apply (layoutFamilyTree_nodes_are_cards_on_rows
           (heap (buildFamilyTree demo)) (roots (buildFamilyTree demo))).
  - apply buildFamilyTree_heap_closed.
  - apply buildFamilyTree_roots_resolve.
Defined.

(** X11.  Every connector of a layout runs along the axis its type names:
    a horizontal connector has [y1 = y2], a vertical one [x1 = x2]. *)
Theorem layoutFamilyTree_connectors_aligned
    (heap : gmap Z FamilyTreePerson) (rootPersons : list FamilyTreePerson)
    (Hclosed : heap_closed heap)
    (Hroots : Forall (resolves heap) rootPersons) :
  ∃ layout,
    layoutFamilyTree heap rootPersons = Some layout ∧
    Forall (λ c, match conn_type c with
                 | horizontal => y1 c = y2 c
                 | vertical => x1 c = x2 c
                 end) (connectors layout).
Proof.
  destruct (layout_finished heap rootPersons Hclosed Hroots)
    as (st & Hlayout & (_ & Haligned & _) & _).
  eexists. split; [exact Hlayout|]. done.
Qed.

Lemma layoutFamilyTree_connectors_aligned_witness :
  ∃ layout,
    layoutFamilyTree (heap (buildFamilyTree demo)) (roots (buildFamilyTree demo))
      = Some layout ∧
    Forall (λ c, match conn_type c with
                 | horizontal => y1 c = y2 c
                 | vertical => x1 c = x2 c
                 end) (connectors layout).
Proof.
  apply (layoutFamilyTree_connectors_aligned
           (heap (buildFamilyTree demo)) (roots (buildFamilyTree demo))).
  - apply buildFamilyTree_heap_closed.
  - apply buildFamilyTree_roots_resolve.
Defined.

(** X12.  The dimensions of a layout are tight: unless the layout has no
    node, in which case they are 0 by 0, the width is the right edge of
    some node and the height is the lower edge of some node; and there is
    no node only when there is no root person. *)
Theorem layoutFamilyTree_dimensions_tight
    (heap : gmap Z FamilyTreePerson) (rootPersons : list FamilyTreePerson)
    (Hclosed : heap_closed heap)
    (Hroots : Forall (resolves heap) rootPersons) :
  ∃ layout,
    layoutFamilyTree heap rootPersons = Some layout ∧
    (nodes layout = [] →
       rootPersons = [] ∧
       dimensions layout = {| dim_width := 0; dim_height := 0 |}) ∧
    (nodes layout ≠ [] →
       (∃ n, n ∈ nodes layout ∧
             node_x n + node_width n = dim_width (dimensions layout)) ∧
       (∃ n, n ∈ nodes layout ∧
             node_y n + node_height n = dim_height (dimensions layout))).
Proof.
  destruct (layout_finished heap rootPersons Hclosed Hroots)
    as (st & Hlayout & (Hshape & _ & Haw & Hah) & Hp & _ & Hplaced).
  eexists. split; [exact Hlayout|]. simpl. split.
  - intros Hnil. split.
    + destruct rootPersons as [|root rest]; [done|].
      apply Forall_cons in Hplaced as [(i & n & Hn & _) _].
      by rewrite Hnil in Hn.
    + destruct Haw as [->|(i & n & Hn & _)]; [|by rewrite Hnil in Hn].
      destruct Hah as [->|(i & n & Hn & _)]; [|by rewrite Hnil in Hn]. done.
  - intros Hsome.
    assert (0 < maxWidth st ∧ 0 < maxHeight st) as [Hw Hh].
    { unfold pending in Hp.
      destruct (st_nodes st) as [|n l] eqn:Hl; [done|].
      apply Forall_cons in Hp as [(? & ? & ? & ?) _].
      apply Forall_cons in Hshape as [(Hnw & Hnh & _) _].
      rewrite Hnw in *. rewrite Hnh in *.
      unfold NODE_WIDTH, NODE_HEIGHT in *. lia. }
    split.
    + destruct Haw as [?|(i & n & Hn & Hedge)]; [lia|].
      exists n. split; [by apply list_elem_of_lookup_2 in Hn|done].
    + destruct Hah as [?|(i & n & Hn & Hedge)]; [lia|].
      exists n. split; [by apply list_elem_of_lookup_2 in Hn|done].
Qed.

Lemma layoutFamilyTree_dimensions_tight_witness :
  ∃ layout,
    layoutFamilyTree (heap (buildFamilyTree demo)) (roots (buildFamilyTree demo))
      = Some layout ∧
    (nodes layout = [] →
       roots (buildFamilyTree demo) = [] ∧
       dimensions layout = {| dim_width := 0; dim_height := 0 |}) ∧
    (nodes layout ≠ [] →
       (∃ n, n ∈ nodes layout ∧
             node_x n + node_width n = dim_width (dimensions layout)) ∧
       (∃ n, n ∈ nodes layout ∧
             node_y n + node_height n = dim_height (dimensions layout))).
Proof.
  apply (layoutFamilyTree_dimensions_tight
           (heap (buildFamilyTree demo)) (roots (buildFamilyTree demo))).
  - apply buildFamilyTree_heap_closed.
  - apply buildFamilyTree_roots_resolve.
Defined.

(** X13.  Every root person gets a node of its own on the top row
    ([y = 0]), and whoever has a node of its own (a node with a [children]
    array, as opposed to the node that shows a spouse beside its partner)
    has all its children in the layout: each child of the person is shown
    by some node. *)
Theorem layoutFamilyTree_roots_and_children_shown
    (heap : gmap Z FamilyTreePerson) (rootPersons : list FamilyTreePerson)
    (Hclosed : heap_closed heap)
    (Hroots : Forall (resolves heap) rootPersons) :
  ∃ layout,
    layoutFamilyTree heap rootPersons = Some layout ∧
    (∀ root, root ∈ rootPersons →
       ∃ n, n ∈ nodes layout ∧ node_person n = root ∧ node_y n = 0 ∧
            is_Some (node_children n)) ∧
    (∀ n c child, n ∈ nodes layout → is_Some (node_children n) →
       c ∈ default [] (children (node_person n)) → heap !! c = Some child →
       ∃ m, m ∈ nodes layout ∧ ftp_id (node_person m) = ftp_id child).
Proof.
  destruct (layout_finished heap rootPersons Hclosed Hroots)
    as (st & Hlayout & _ & _ & Hcov & Hplaced).
  eexists. split; [exact Hlayout|]. simpl. split.
  - intros root Hroot. rewrite Forall_forall in Hplaced.
    destruct (Hplaced root Hroot) as (i & n & Hn & Hrest).
    exists n. split; [by apply list_elem_of_lookup_2 in Hn|done].
  - intros n c child [i Hn]%list_elem_of_lookup Hchildren Hc Hchild.
    apply elem_of_seen. apply (Hcov i n Hn) with (c := c); [tauto|done..].
Qed.

Lemma layoutFamilyTree_roots_and_children_shown_witness :
  ∃ layout,
    layoutFamilyTree (heap (buildFamilyTree demo)) (roots (buildFamilyTree demo))
      = Some layout ∧
    (∀ root, root ∈ roots (buildFamilyTree demo) →
       ∃ n, n ∈ nodes layout ∧ node_person n = root ∧ node_y n = 0 ∧
            is_Some (node_children n)) ∧
    (∀ n c child, n ∈ nodes layout → is_Some (node_children n) →
       c ∈ default [] (children (node_person n)) →
       heap (buildFamilyTree demo) !! c = Some child →
       ∃ m, m ∈ nodes layout ∧ ftp_id (node_person m) = ftp_id child).
Proof.
  apply (layoutFamilyTree_roots_and_children_shown
           (heap (buildFamilyTree demo)) (roots (buildFamilyTree demo))).
  - apply buildFamilyTree_heap_closed.
  - apply buildFamilyTree_roots_resolve.
Defined.

(** ** The client's copy and the server's store *)

Lemma values_filter {V} (m : gmap Z V) (id : V → Z) (P : V → Prop)
    `{∀ v, Decision (P v)} :
  (∀ k v, m !! k = Some v → id v = k) →
  values (filter (λ kv, P kv.2) m) ≡ₚ filter P (values m).
Proof.
  intros Hid. apply NoDup_Permutation.
  - apply (values_NoDup _ id). intros k v [Hk _]%map_lookup_filter_Some. by apply Hid.
  - apply NoDup_filter. by apply (values_NoDup _ id).
  - intros v. rewrite list_elem_of_filter, !elem_of_values. split.
    + intros [k [Hk HP]%map_lookup_filter_Some]. split; [done|by exists k].
    + intros [HP [k Hk]]. exists k. by apply map_lookup_filter_Some.
Qed.

Lemma values_delete {V} (m : gmap Z V) (id : V → Z) k :
  (∀ k v, m !! k = Some v → id v = k) →
  values (delete k m) ≡ₚ filter (λ v, id v ≠ k) (values m).
Proof.
  intros Hid. apply NoDup_Permutation.
  - apply (values_NoDup _ id). intros j v [_ Hj]%lookup_delete_Some. by apply Hid.
  - apply NoDup_filter. by apply (values_NoDup _ id).
  - intros v. rewrite list_elem_of_filter, !elem_of_values. split.
    + intros [j [Hne Hj]%lookup_delete_Some]. split; [|by exists j].
      rewrite (Hid j v Hj). done.
    + intros [Hne [j Hj]]. exists j. apply lookup_delete_Some. split; [|done].
      rewrite <- (Hid j v Hj). done.
Qed.

(** X14.  When the person is stored, deleting it succeeds and the
    client's local update agrees with the server: the persons and the
    relationships that remain in the store after [deletePerson id] are,
    up to order, those that the client keeps when it filters its copy of
    the snapshot. *)
Theorem deletePerson_local_agrees (id : Z) (s : MemStorage) (Hwf : store_wf s)
    (Hstored : is_Some (getPerson id s)) :
  let '(deleted, s') := deletePerson id s in
  let server := getFamilyTreeData s' in
  let client := deletePerson_local deleted id (getFamilyTreeData s) in
  deleted = true ∧
  data_persons server ≡ₚ data_persons client ∧
  data_relationships server ≡ₚ data_relationships client.
Proof.
  rewrite deletePerson_spec by done. destruct Hwf as (Hp & Hr & _).
  unfold getPerson in Hstored. rewrite (bool_decide_eq_true_2 _ Hstored).
  unfold getFamilyTreeData, deletePerson_local. simpl.
  split; [done|]. split.
  - apply (values_delete _ person_id). intros k p Hk. by destruct (Hp k p Hk).
  - pose proof (values_filter (relationships s) rel_id (λ r, ¬ involves id r))
      as Hfilter.
    etrans; [apply Hfilter|].
    + intros k r Hk. by destruct (Hr k r Hk).
    + apply reflexive_eq, list_filter_iff. intros r. unfold involves. tauto.
Qed.

Lemma deletePerson_local_agrees_witness :
  let s := run [CreatePerson (ip "Ada"); CreatePerson (ip "Byron");
                CreateRelationship (ir "parent" 2 1)] constructor in
  let '(deleted, s') := deletePerson 1 s in
  let server := getFamilyTreeData s' in
  let client := deletePerson_local deleted 1 (getFamilyTreeData s) in
  deleted = true ∧
  data_persons server ≡ₚ data_persons client ∧
  data_relationships server ≡ₚ data_relationships client.
Proof.
  intros s. apply (deletePerson_local_agrees 1 s).
  - apply store_wf_run, store_wf_constructor.
  - vm_compute. by eexists.
Defined.

(** When the person is not stored the request fails and the client keeps
    its copy, relationships of that id included, although the store has
    dropped them. *)
Example deletePerson_local_missing_person :
  let s := run [CreateRelationship (ir "parent" 7 8)] constructor in
  let '(deleted, s') := deletePerson 7 s in
  deleted = false ∧
  deletePerson_local deleted 7 (getFamilyTreeData s) = getFamilyTreeData s ∧
  length (data_relationships (getFamilyTreeData s)) = 2%nat ∧
  data_relationships (getFamilyTreeData s') = [].
Proof. vm_compute. done. Qed.

(** X15.  The client's local updates after adding and after updating a
    person agree with the server: appending the person that [createPerson]
    returned, respectively replacing by the person that [updatePerson]
    returned every listed person with that id, gives, up to order, the
    persons of the server's new snapshot. *)
Theorem addPerson_updatePerson_local_agree (s : MemStorage) (Hwf : store_wf s) :
  (∀ insertPerson,
     let '(person, s') := createPerson insertPerson s in
     data_persons (getFamilyTreeData s') ≡ₚ
     data_persons (addPerson_local person (getFamilyTreeData s))) ∧
  (∀ id insertPerson updated s',
     updatePerson id insertPerson s = (Some updated, s') →
     data_persons (getFamilyTreeData s') ≡ₚ
     data_persons (updatePerson_local id updated (getFamilyTreeData s))).
Proof.
  destruct Hwf as (Hp & _). split.
  - intros insertPerson. unfold getFamilyTreeData, addPerson_local. simpl.
    apply values_insert_fresh.
    destruct (persons s !! currentPersonId s) as [p|] eqn:Hk; [|done].
    apply Hp in Hk. lia.
  - intros id insertPerson updated s' Hrun. unfold updatePerson in Hrun.
    destruct (persons s !! id) as [old|] eqn:Hold; [|done].
    injection Hrun as <- <-.
    unfold getFamilyTreeData, updatePerson_local, values. simpl.
    rewrite <- (insert_delete_eq (persons s)).
    rewrite map_to_list_insert by apply lookup_delete_eq.
    rewrite <- (map_to_list_delete (persons s) id old Hold) at 1.
    rewrite !fmap_cons. simpl.
    destruct (Hp id old Hold) as [-> _]. rewrite decide_True by done.
    apply Permutation_skip. apply reflexive_eq.
    rewrite <- list_fmap_compose. apply Forall_fmap_ext_1, Forall_forall.
    intros [k p] [Hne Hk]%elem_of_map_to_list%lookup_delete_Some. simpl.
    destruct (Hp k p Hk) as [-> _]. by rewrite decide_False.
Qed.

Lemma addPerson_updatePerson_local_agree_witness :
  let s := run [CreatePerson (ip "Ada"); CreatePerson (ip "Byron")] constructor in
  (∀ insertPerson,
     let '(person, s') := createPerson insertPerson s in
     data_persons (getFamilyTreeData s') ≡ₚ
     data_persons (addPerson_local person (getFamilyTreeData s))) ∧
  (∀ id insertPerson updated s',
     updatePerson id insertPerson s = (Some updated, s') →
     data_persons (getFamilyTreeData s') ≡ₚ
     data_persons (updatePerson_local id updated (getFamilyTreeData s))).
Proof.
  intros s. apply (addPerson_updatePerson_local_agree s).
  apply store_wf_run, store_wf_constructor.
Defined.


(** ** Reading the relationships back from a tree *)

Lemma record_pair_ok heap tree kind person other st :
  extraction_ok heap tree st →
  in_tree heap tree person →
  held heap kind person other →
  pair_key (ftp_id person) (ftp_id other) kind ∉ processedPairs st →
  (kind ≠ "parent" →
   pair_key (ftp_id other) (ftp_id person) kind ∉ processedPairs st) →
  extraction_ok heap tree (record_pair kind person other st).
Proof.
  intros (Hread & Hnd & Hkey & Hrev) Hperson Hheld Hk Hrk.
  unfold extraction_ok, record_pair. cbn [ex_relationships processedPairs].
  set (r := {| rel_id := 0; rel_type := kind; personId := ftp_id person;
               relatedPersonId := ftp_id other |}).
  split; [|split; [|split]].
  - apply Forall_app. split; [done|]. apply Forall_singleton.
    split; [done|]. by exists person, other.
  - apply NoDup_app. split; [done|]. split; [|apply NoDup_singleton].
    intros x Hx ->%list_elem_of_singleton. by apply Hk, (Hkey r).
  - intros x [Hx| ->%list_elem_of_singleton]%elem_of_app; apply elem_of_union.
    + right. by apply Hkey.
    + left. by apply elem_of_singleton.
  - intros x y [Hx| ->%list_elem_of_singleton]%elem_of_app
                 [Hy| ->%list_elem_of_singleton]%elem_of_app Ht Hxy.
    + by apply Hrev.
    + destruct Hxy as (Hty & Hp & Hq). cbn in Hty, Hp, Hq.
      exfalso. apply Hrk; [by rewrite <- Hty|].
      rewrite <- Hp, <- Hq, <- Hty. by apply Hkey.
    + destruct Hxy as (Hty & Hp & Hq). cbn in Hty, Hp, Hq, Ht.
      exfalso. apply Hrk; [done|].
      rewrite Hp, Hq, Hty. by apply Hkey.
    + done.
Qed.

Lemma record_parent_ok heap tree person child st :
  extraction_ok heap tree st →
  in_tree heap tree person →
  held heap "parent" person child →
  extraction_ok heap tree (record_parent person child st).
Proof.
  intros Hok Hperson Hheld. unfold record_parent. case_decide as Hk; [|done].
  by apply record_pair_ok.
Qed.

Lemma record_couple_ok heap tree kind person other st :
  extraction_ok heap tree st →
  in_tree heap tree person →
  held heap kind person other →
  extraction_ok heap tree (record_couple kind person st other).
Proof.
  intros Hok Hperson Hheld. unfold record_couple.
  case_decide as Hk; [|done]. destruct Hk as [Hk Hrk].
  by apply record_pair_ok.
Qed.

Lemma record_couples_ok heap tree kind person : ∀ others st,
  extraction_ok heap tree st →
  in_tree heap tree person →
  Forall (held heap kind person) others →
  extraction_ok heap tree (foldl (record_couple kind person) st others).
Proof.
  induction others as [|other others IH]; intros st Hok Hperson Hall; [done|].
  apply Forall_cons in Hall as [Hother Hall]. cbn [foldl].
  apply IH; [|done..]. by apply record_couple_ok.
Qed.

Lemma visit_children_ok heap tree recur person :
  in_tree heap tree person →
  ∀ childObjects st,
    Forall (λ child,
              held heap "parent" person child ∧
              ∀ st, extraction_ok heap tree st →
                    ∃ st', recur child st = Some st' ∧
                           extraction_ok heap tree st') childObjects →
    extraction_ok heap tree st →
    ∃ st', visit_children recur person childObjects st = Some st' ∧
           extraction_ok heap tree st'.
Proof.
  intros Hperson.
  induction childObjects as [|child rest IH]; intros st Hall Hok.
  - by exists st.
  - apply Forall_cons in Hall as [[Hheld Hrec] Hall]. cbn [visit_children].
    destruct (Hrec (record_parent person child st)) as (st1 & -> & Hok1).
    { by apply record_parent_ok. }
    cbn. by apply IH.
Qed.

(** The objects behind an array of references that all resolve. *)
Lemma dereference (heap : gmap Z FamilyTreePerson) (refs : list Z) :
  (∀ x, x ∈ refs → is_Some (heap !! x)) →
  ∃ objects,
    mapM (λ r, heap !! r) refs = Some objects ∧
    Forall (λ o, ∃ c, c ∈ refs ∧ heap !! c = Some o) objects.
Proof.
  intros Hres.
  destruct (mapM_is_Some_2 (λ r, heap !! r) refs) as [objects Hm].
  { apply Forall_forall. intros x Hx. by apply Hres. }
  exists objects. split; [done|].
  apply mapM_Some_1 in Hm. apply Forall_forall. intros o Ho.
  apply list_elem_of_lookup in Ho as [i Hi].
  destruct (Forall2_lookup_r _ _ _ _ _ Hm Hi) as (c & Hc & Hco).
  exists c. split; [|done]. by apply list_elem_of_lookup_2 in Hc.
Qed.

Section extraction.
Variables (heap : gmap Z FamilyTreePerson) (tree : list FamilyTreePerson).
Variable rank : Z → nat.
Hypothesis Hres : ∀ p, in_tree heap tree p → resolves_all heap p.
Hypothesis Hdesc : ∀ p, in_tree heap tree p → descends rank heap p.

Lemma traverseTree_ok : ∀ fuel person st,
  in_tree heap tree person →
  (rank (ftp_id person) < fuel)%nat →
  extraction_ok heap tree st →
  ∃ st', traverseTree fuel heap person st = Some st' ∧
         extraction_ok heap tree st'.
Proof.
  induction fuel as [|fuel IH]; intros person st Hperson Hfuel Hok; [lia|].
  cbn [traverseTree].
  destruct (dereference heap (default [] (children person)))
    as (childObjects & -> & Hchildren).
  { intros x Hx. apply (Hres person Hperson), elem_of_app. by left. }
  destruct (dereference heap (default [] (spouses person)))
    as (spouseObjects & Hs & Hspouses).
  { intros x Hx. apply (Hres person Hperson).
    apply elem_of_app. right. apply elem_of_app. by left. }
  destruct (dereference heap (default [] (siblings person)))
    as (siblingObjects & Hb & Hsiblings).
  { intros x Hx. apply (Hres person Hperson).
    apply elem_of_app. right. apply elem_of_app. by right. }
  cbn.
  destruct (visit_children_ok heap tree (traverseTree fuel heap) person Hperson
              childObjects st) as (st1 & -> & Hok1); [|done|].
  { eapply Forall_impl; [exact Hchildren|]. intros child (c & Hc & Hchild).
    split.
    - exists c. split; [done|]. by left.
    - intros st0 Hok0. apply IH; [right; by exists c| |done].
      pose proof (Hdesc person Hperson c child Hc Hchild). lia. }
  cbn. rewrite Hs. cbn. rewrite Hb. cbn. eexists. split; [reflexivity|].
  apply record_couples_ok; [|done|].
  - apply record_couples_ok; [done..|].
    eapply Forall_impl; [exact Hspouses|]. intros o (c & Hc & Ho).
    exists c. split; [done|]. right. by left.
  - eapply Forall_impl; [exact Hsiblings|]. intros o (c & Hc & Ho).
    exists c. split; [done|]. right. by right.
Qed.

Lemma traverse_all_ok fuel :
  (∀ p, in_tree heap tree p → (rank (ftp_id p) < fuel)%nat) →
  ∀ people st,
    Forall (in_tree heap tree) people →
    extraction_ok heap tree st →
    ∃ st', traverse_all fuel heap people st = Some st' ∧
           extraction_ok heap tree st'.
Proof.
  intros Hfuel. induction people as [|person rest IH]; intros st Hall Hok.
  - by exists st.
  - apply Forall_cons in Hall as [Hperson Hall]. cbn [traverse_all].
    destruct (traverseTree_ok fuel person st) as (st1 & -> & Hok1);
      [done|by apply Hfuel|done|].
    cbn. by apply IH.
Qed.

Lemma getRelationshipsFromTree_ok fuel :
  (∀ p, in_tree heap tree p → (rank (ftp_id p) < fuel)%nat) →
  ∃ result,
    getRelationshipsFromTree fuel heap tree = Some result ∧
    Forall (read_off heap tree) result ∧
    NoDup result ∧
    (∀ x y, x ∈ result → y ∈ result →
            rel_type x ≠ "parent" → reversed x y → same_statement x y).
Proof.
  intros Hfuel. unfold getRelationshipsFromTree.
  destruct (traverse_all_ok fuel Hfuel tree
              {| ex_relationships := []; processedPairs := ∅ |})
    as (st & -> & Hread & Hnd & _ & Hrev).
  { apply Forall_forall. intros p Hp. by left. }
  { split; [by apply Forall_nil|]. split; [apply NoDup_nil_2|].
    split; [intros x|intros x y]; cbn; intros Hx; by apply elem_of_nil in Hx. }
  cbn. by exists (ex_relationships st).
Qed.

End extraction.


(** *** Trees made by [buildFamilyTree] *)

Lemma buildFamilyTree_in_tree data p :
  in_tree (heap (buildFamilyTree data)) (roots (buildFamilyTree data)) p →
  heap (buildFamilyTree data) !! ftp_id p = Some p.
Proof.
  intros [Hroot|[a Ha]]; [by apply buildFamilyTree_roots_in_heap|].
  by destruct (buildFamilyTree_node data a p Ha) as (-> & _).
Qed.

Lemma elem_of_related t data a x :
  x ∈ related t data a →
  x ∈ person_id <$> data_persons data ∧
  ∃ r, r ∈ data_relationships data ∧ rel_type r = t ∧ personId r = a ∧
       relatedPersonId r = x.
Proof.
  unfold related. intros (r & -> & Hr)%list_elem_of_fmap.
  apply list_elem_of_filter in Hr as [(Ht & Ha & Hin) Hr].
  split; [done|]. by exists r.
Qed.

Lemma buildFamilyTree_resolves_all data p :
  in_tree (heap (buildFamilyTree data)) (roots (buildFamilyTree data)) p →
  resolves_all (heap (buildFamilyTree data)) p.
Proof.
  intros Hp%buildFamilyTree_in_tree x Hx.
  destruct (buildFamilyTree_node data _ _ Hp) as (_ & _ & Hc & _ & Hs & Hb).
  rewrite Hc, Hs, Hb in Hx. cbn in Hx. apply buildFamilyTree_is_Some.
  apply elem_of_app in Hx as [Hx|[Hx|Hx]%elem_of_app];
    by apply elem_of_related in Hx as [Hx _].
Qed.

Lemma buildFamilyTree_descends data rank p :
  (∀ r, r ∈ data_relationships data → rel_type r = "parent" →
        (rank (relatedPersonId r) < rank (personId r))%nat) →
  in_tree (heap (buildFamilyTree data)) (roots (buildFamilyTree data)) p →
  descends rank (heap (buildFamilyTree data)) p.
Proof.
  intros Hrank Hp%buildFamilyTree_in_tree c child Hc Hchild.
  destruct (buildFamilyTree_node data _ _ Hp) as (_ & _ & Hcs & _).
  destruct (buildFamilyTree_node data _ _ Hchild) as (-> & _).
  rewrite Hcs in Hc. cbn in Hc.
  apply elem_of_related in Hc as (_ & r & Hr & Ht & Ha & Hx).
  rewrite <- Ha, <- Hx. by apply Hrank.
Qed.

Lemma buildFamilyTree_rank_bound data rank (fuel : nat) p :
  (∀ q, q ∈ data_persons data → (rank (person_id q) < fuel)%nat) →
  in_tree (heap (buildFamilyTree data)) (roots (buildFamilyTree data)) p →
  (rank (ftp_id p) < fuel)%nat.
Proof.
  intros Hfuel Hp%buildFamilyTree_in_tree.
  destruct (buildFamilyTree_node data _ _ Hp) as (_ & Hin & _).
  by apply Hfuel.
Qed.

Lemma buildFamilyTree_read_off data x :
  read_off (heap (buildFamilyTree data)) (roots (buildFamilyTree data)) x →
  rel_id x = 0 ∧
  rel_type x ∈ ["parent"; "spouse"; "sibling"] ∧
  ∃ r, r ∈ data_relationships data ∧ same_statement r x.
Proof.
  intros (Hid & person & other & Hp%buildFamilyTree_in_tree & Hheld & Ha & Hb).
  split; [done|].
  destruct Hheld as (c & Hother & Hkind).
  destruct (buildFamilyTree_node data _ _ Hp) as (_ & _ & Hc & _ & Hs & Hsib).
  destruct (buildFamilyTree_node data _ _ Hother) as (Hcid & _).
  rewrite Hc, Hs, Hsib in Hkind. cbn in Hkind.
  assert (∃ t, rel_type x = t ∧ t ∈ ["parent"; "spouse"; "sibling"] ∧
               c ∈ related t data (ftp_id person)) as (t & Ht & Hin & Hrel).
  { destruct Hkind as [[Hk Hx]|[[Hk Hx]|[Hk Hx]]]; eexists;
      (split; [exact Hk|]); (split; [|exact Hx]);
      rewrite !elem_of_cons; auto. }
  split; [by rewrite Ht|].
  apply elem_of_related in Hrel as (_ & r & Hr & Hrt & Hra & Hrb).
  exists r. split; [done|]. unfold same_statement.
  rewrite Hrt, Hra, Hrb, Ht, Ha, Hb, Hcid. done.
Qed.

Lemma visit_children_stuck recur person : ∀ childObjects st,
  Exists (λ child, ∀ st, recur child st = None) childObjects →
  visit_children recur person childObjects st = None.
Proof.
  induction childObjects as [|child rest IH]; intros st Hex;
    [by apply Exists_nil in Hex|].
  cbn [visit_children]. apply Exists_cons in Hex as [Hchild|Hrest].
  - by rewrite Hchild.
  - destruct (recur child _); cbn; [by apply IH|done].
Qed.

Lemma traverse_all_stuck fuel heap : ∀ tree st,
  Exists (λ person, ∀ st, traverseTree fuel heap person st = None) tree →
  traverse_all fuel heap tree st = None.
Proof.
  induction tree as [|person rest IH]; intros st Hex;
    [by apply Exists_nil in Hex|].
  cbn [traverse_all]. apply Exists_cons in Hex as [Hperson|Hrest].
  - by rewrite Hperson.
  - destruct (traverseTree fuel heap person st); cbn; [by apply IH|done].
Qed.

Lemma traverseTree_stuck heap (C : FamilyTreePerson → Prop) :
  (∀ q, C q → ∃ c child, c ∈ default [] (children q) ∧
                         heap !! c = Some child ∧ C child) →
  ∀ fuel q st, C q → traverseTree fuel heap q st = None.
Proof.
  intros Hcycle. induction fuel as [|fuel IH]; intros q st Hq; [done|].
  cbn [traverseTree].
  destruct (mapM (λ r, heap !! r) (default [] (children q)))
    as [childObjects|] eqn:Hm; [|done].
  cbn. rewrite visit_children_stuck; [done|].
  destruct (Hcycle q Hq) as (c & child & Hc & Hchild & HC).
  apply mapM_Some_1 in Hm. apply list_elem_of_lookup in Hc as [i Hi].
  destruct (Forall2_lookup_l _ _ _ _ _ Hm Hi) as (o & Ho & Hco).
  apply Exists_exists. exists o. split; [by apply list_elem_of_lookup_2 in Ho|].
  intros st0. apply IH. rewrite Hchild in Hco. by injection Hco as <-.
Qed.

(** X16.  On a tree whose references resolve and in which every child
    ranks below its parent, [getRelationshipsFromTree] returns (with any
    fuel above the ranks), and of what it returns: every relationship has
    id 0 and is read off the [children], [spouses] or [siblings] array of
    a person of the tree, as type parent, spouse or sibling from that
    person to the array's member; no relationship is returned twice; and
    a spouse or sibling relationship is never returned together with the
    same relationship stated the other way round. *)
Theorem getRelationshipsFromTree_reads_each_link_once
    (heap : gmap Z FamilyTreePerson) (tree : list FamilyTreePerson)
    (rank : Z → nat) (fuel : nat)
    (Hres : ∀ p, in_tree heap tree p → resolves_all heap p)
    (Hdesc : ∀ p, in_tree heap tree p → descends rank heap p)
    (Hfuel : ∀ p, in_tree heap tree p → (rank (ftp_id p) < fuel)%nat) :
  ∃ result,
    getRelationshipsFromTree fuel heap tree = Some result ∧
    Forall (read_off heap tree) result ∧
    NoDup result ∧
    (∀ x y, x ∈ result → y ∈ result →
            rel_type x ≠ "parent" → reversed x y → same_statement x y).
Proof. by apply (getRelationshipsFromTree_ok heap tree rank). Qed.

Lemma getRelationshipsFromTree_reads_each_link_once_witness :
  let forest := buildFamilyTree demo in
  let rank := λ a : Z, if decide (a = 3) then 0%nat else 1%nat in
  ∃ result,
    getRelationshipsFromTree 2 (heap forest) (roots forest) = Some result ∧
    Forall (read_off (heap forest) (roots forest)) result ∧
    NoDup result ∧
    (∀ x y, x ∈ result → y ∈ result →
            rel_type x ≠ "parent" → reversed x y → same_statement x y).
Proof.
  intros forest rank.
  apply (getRelationshipsFromTree_reads_each_link_once
           (heap forest) (roots forest) rank 2).
  - apply buildFamilyTree_resolves_all.
  - intros p. apply buildFamilyTree_descends.
    refine (proj1 (Forall_forall _ _) _).
    apply (bool_decide_unpack _). vm_compute. exact I.
  - intros p. apply buildFamilyTree_rank_bound.
    refine (proj1 (Forall_forall _ _) _).
    apply (bool_decide_unpack _). vm_compute. exact I.
Defined.

(** X17.  [getRelationshipsFromTree] after [buildFamilyTree]: when the
    parent relationships of the flat data have no cycle (every one goes
    from a higher to a lower rank), the extraction from the built tree
    returns, and every relationship it returns has id 0, has type
    parent, spouse or sibling (never child), and states what some
    relationship of the flat data states; none is returned twice. *)
Theorem getRelationshipsFromTree_of_buildFamilyTree
    (data : FamilyTreeData) (rank : Z → nat) (fuel : nat)
    (Hacyclic : ∀ r, r ∈ data_relationships data → rel_type r = "parent" →
                     (rank (relatedPersonId r) < rank (personId r))%nat)
    (Hfuel : ∀ p, p ∈ data_persons data → (rank (person_id p) < fuel)%nat) :
  let forest := buildFamilyTree data in
  ∃ result,
    getRelationshipsFromTree fuel (heap forest) (roots forest) = Some result ∧
    NoDup result ∧
    ∀ x, x ∈ result →
      rel_id x = 0 ∧
      rel_type x ∈ ["parent"; "spouse"; "sibling"] ∧
      ∃ r, r ∈ data_relationships data ∧ same_statement r x.
Proof.
  intros forest.
  destruct (getRelationshipsFromTree_ok (heap forest) (roots forest) rank)
    with (fuel := fuel) as (result & Hrun & Hread & Hnd & _).
  - apply buildFamilyTree_resolves_all.
  - intros p. by apply buildFamilyTree_descends.
  - intros p. by apply buildFamilyTree_rank_bound.
  - exists result. split; [done|]. split; [done|].
    intros x Hx. apply buildFamilyTree_read_off.
    by apply (proj1 (Forall_forall _ _) Hread).
Qed.

Lemma getRelationshipsFromTree_of_buildFamilyTree_witness :
  let s := run [CreatePerson (ip "Ada"); CreatePerson (ip "Byron");
                CreatePerson (ip "Cleo");
                CreateRelationship (ir "parent" 1 3);
                CreateRelationship (ir "spouse" 1 2);
                CreateRelationship (ir "parent" 2 3)] constructor in
  let forest := buildFamilyTree (getFamilyTreeData s) in
  ∃ result,
    getRelationshipsFromTree 2 (heap forest) (roots forest) = Some result ∧
    NoDup result ∧
    ∀ x, x ∈ result →
      rel_id x = 0 ∧
      rel_type x ∈ ["parent"; "spouse"; "sibling"] ∧
      ∃ r, r ∈ data_relationships (getFamilyTreeData s) ∧ same_statement r x.
Proof.
  intros s.
  apply (getRelationshipsFromTree_of_buildFamilyTree (getFamilyTreeData s)
           (λ a : Z, if decide (a = 3) then 0%nat else 1%nat) 2).
  - refine (proj1 (Forall_forall _ _) _).
    apply (bool_decide_unpack _). vm_compute. exact I.
  - refine (proj1 (Forall_forall _ _) _).
    apply (bool_decide_unpack _). vm_compute. exact I.
Defined.

(** X18.  [getRelationshipsFromTree] has no guard against persons met
    before: when a root belongs to a set of persons each of which has a
    child in the set (the root is on, or above, a cycle of [children]
    links), the traversal never returns, whatever the depth allowed. *)
Theorem getRelationshipsFromTree_never_returns_above_a_cycle
    (heap : gmap Z FamilyTreePerson) (tree : list FamilyTreePerson)
    (C : FamilyTreePerson → Prop) (root : FamilyTreePerson)
    (Hcycle : ∀ q, C q → ∃ c child, c ∈ default [] (children q) ∧
                                    heap !! c = Some child ∧ C child)
    (Hroot : root ∈ tree) (HC : C root) :
  ∀ fuel, getRelationshipsFromTree fuel heap tree = None.
Proof.
  intros fuel. unfold getRelationshipsFromTree.
  rewrite traverse_all_stuck; [done|].
  apply Exists_exists. exists root. split; [done|].
  intros st. by apply (traverseTree_stuck heap C).
Qed.


Lemma getRelationshipsFromTree_never_returns_above_a_cycle_witness :
  let s := run [CreatePerson (ip "Ada"); CreatePerson (ip "Byron");
                CreatePerson (ip "Cleo");
                CreateRelationship (ir "parent" 1 2);
                CreateRelationship (ir "parent" 2 3);
                CreateRelationship (ir "parent" 3 2)] constructor in
  let forest := buildFamilyTree (getFamilyTreeData s) in
  roots forest ≠ [] ∧
  ∀ fuel, getRelationshipsFromTree fuel (heap forest) (roots forest) = None.
Proof.
  intros s forest.
  assert (map_Forall
            (λ _ q, Exists (λ c, is_Some (heap forest !! c))
                           (default [] (children q)))
            (heap forest)) as Hall.
  { apply (bool_decide_unpack _). vm_compute. exact I. }
  assert (roots forest ≠ []) as Hne.
  { apply (bool_decide_unpack _). vm_compute. exact I. }
  split; [done|].
  destruct (roots forest) as [|root rest] eqn:Hroots; [done|].
  rewrite <- Hroots.
  assert (root ∈ roots forest) as Hroot.
  { rewrite Hroots. apply elem_of_cons. by left. }
  apply (getRelationshipsFromTree_never_returns_above_a_cycle
           (heap forest) (roots forest)
           (λ q, ∃ a, heap forest !! a = Some q) root).
  - intros q [a Ha]. pose proof (Hall a q Ha) as Hex. cbn in Hex.
    apply Exists_exists in Hex as (c & Hc & [child Hchild]).
    exists c, child. split; [done|]. split; [done|]. by exists c.
  - done.
  - exists (ftp_id root). by apply buildFamilyTree_roots_in_heap.
Defined.
